(** * Rocket League simulator: the tick loop, the simulator and the image asset

    A shallow embedding of four Python sources:
    - [rktl_sim/src/visualizer/asset.py]          (module [Image]),
    - [rocket_league_simulation/src/simulator/sim.py] (module [Sim]),
    - [racersim/nodes/sim_node.py]                (module [RacerSimROS]),
    - [rocket_league_drl/scripts/run_drl.py]      (module [RunDrl]).

    A Python float is the rational number ([Q]) it stands for, and the two
    float operations of the sources, in [Duration.to_sec()] and in
    [360.0 + angle], round to the nearest double (module [Float]); a
    [rospy.Time] is its count of nanoseconds ([Z]).  Code that is not in
    these files (pygame, pybullet, the ROS message classes, the [racersim]
    package and the [Car] class) is a parameter of the definitions that
    call it; its calls are taken to return, except where a definition
    says otherwise.

    The definitions come first, module by module; the properties follow. *)

From Stdlib Require Import ZArith QArith Lia.
From stdpp Require Import base option list strings gmap.

Local Open Scope Z_scope.

(** ** Python outcomes: a state monad whose state survives an exception *)

Module Py.

Inductive exn : Type :=
| AttributeError (name : string)
| KeyError (key : string)
| TypeError
| IndexError
| RuntimeError.

(** A call returns, raises, or never comes back (a lock that is held). *)
Inductive result (A : Type) : Type :=
| Ok (a : A)
| Raise (e : exn)
| Block.
Arguments Ok {A} a.
Arguments Raise {A} e.
Arguments Block {A}.

Definition M (S A : Type) : Type := S -> result A * S.

Definition ret {S A} (a : A) : M S A := fun s => (Ok a, s).

Definition bind {S A B} (m : M S A) (k : A -> M S B) : M S B :=
  fun s =>
    match m s with
    | (Ok a, s') => k a s'
    | (Raise e, s') => (Raise e, s')
    | (Block, s') => (Block, s')
    end.

Definition raise {S A} (e : exn) : M S A := fun s => (Raise e, s).
Definition block {S A} : M S A := fun s => (Block, s).
Definition modify {S} (f : S -> S) : M S unit := fun s => (Ok tt, f s).

(** A pure partial operation used inside a computation. *)
Definition lift {S A} (r : result A) : M S A := fun s => (r, s).

End Py.

Import Py.

Declare Scope py_scope.
Delimit Scope py_scope with py.
Notation "x <- m ;; k" := (bind m (fun x => k))
  (at level 100, m at next level, right associativity) : py_scope.
Notation "m ;;; k" := (bind m (fun _ => k))
  (at level 100, k at level 200, right associativity) : py_scope.
Local Open Scope py_scope.

(** [x < y] on floats, as a boolean. *)
Definition Qlt_bool (x y : Q) : bool := negb (Qle_bool y x).

(** Python floats are IEEE 754 doubles.  A finite double is a rational
    number, and the result of an operation is the double nearest to the
    exact result, ties going to the even mantissa.  The numbers met here
    stay in the range of normal doubles. *)
Module Float.

(** The double nearest to [n / d] (ties to even), as an exact rational:
    [e] is the exponent of [n / d], and the quotient is rounded to 53
    bits. *)
Definition round_pos (n d : positive) : Q :=
  let e0 := Z.log2 (Zpos n) - Z.log2 (Zpos d) in
  let e := if Zpos n * 2 ^ Z.max 0 (- e0) <? Zpos d * 2 ^ Z.max 0 e0
           then e0 - 1 else e0 in
  let s := e - 52 in
  let num := Zpos n * 2 ^ Z.max 0 (- s) in
  let den := Zpos d * 2 ^ Z.max 0 s in
  let k := num / den in
  let r := num mod den in
  let m := if 2 * r <? den then k
           else if den <? 2 * r then k + 1
           else if Z.even k then k else k + 1 in
  if 0 <=? s then inject_Z (m * 2 ^ s) else m # Z.to_pos (2 ^ (- s)).

Definition round (q : Q) : Q :=
  match Qnum q with
  | Z0 => 0%Q
  | Zpos n => round_pos n (Qden q)
  | Zneg n => (- round_pos n (Qden q))%Q
  end.

End Float.

(** ** asset.py: [Image] *)

Module Image.
Section WithPygame.

(** pygame: surfaces, rectangles, and the functions the class calls. *)
Variable Surface : Type.
Variable Rect : Type.
Variable image_load : string -> Surface.
Variable transform_scale : Surface -> Z * Z -> Surface.
Variable transform_rotate : Surface -> Q -> Surface.
Variable get_rect : Surface -> Q * Q -> Rect.
Variable surface_blit : Surface -> Surface -> Rect -> Surface.

Record t : Type := {
  width : Z;
  length : Z;
  pos : Q * Q;
  angle : Q;
  init_img : Surface;
  img : Surface
}.

Definition __init__ (width length : Z) (img_path : string) : t :=
  let init_img := image_load img_path in
  let init_img := transform_scale init_img (width, length) in
  {| width := width; length := length; pos := (0, 0)%Q; angle := 0%Q;
     init_img := init_img; img := init_img |}.

Definition setPos (x y : Q) (self : t) : t :=
  {| width := width self; length := length self; pos := (x, y);
     angle := angle self; init_img := init_img self; img := img self |}.

(** The angle handed to [pygame.transform.rotate]; [360.0 + angle] is a
    sum of doubles. *)
Definition rotation_angle (angle : Q) : Q :=
  if Qlt_bool angle 0 then Float.round (360 + angle) else angle.

(** [self.angle] is not assigned by [setAngle]; only [self.img] is. *)
Definition setAngle (degrees : Q) (self : t) : t :=
  let degrees := rotation_angle degrees in
  {| width := width self; length := length self; pos := pos self;
     angle := angle self; init_img := init_img self;
     img := transform_rotate (init_img self) degrees |}.

(** [blit] returns the screen with [self.img] drawn on it, centred at
    [self.pos]. *)
Definition blit (screen : Surface) (self : t) : Surface :=
  let rect := get_rect (img self) (pos self) in
  surface_blit screen (img self) rect.

(** The calls a visualizer makes on an [Image] once it is built. *)
Inductive call : Type :=
| SetPos (x y : Q)
| SetAngle (degrees : Q).

(** Whether [pygame.transform.rotate] returns for this surface and this
    angle; [transform_rotate] is its result when it does.  When it raises,
    line 41 assigns nothing: the object is as it was before the call. *)
Variable rotates : Surface -> Q -> bool.

(** One call, as it leaves the object; the caller goes on after an
    exception. *)
Definition perform (c : call) (self : t) : t :=
  match c with
  | SetPos x y => setPos x y self
  | SetAngle degrees =>
      if rotates (init_img self) (rotation_angle degrees)
      then setAngle degrees self
      else self
  end.

Fixpoint perform_all (cs : list call) (self : t) : t :=
  match cs with
  | [] => self
  | c :: rest => perform_all rest (perform c self)
  end.

(** The arguments of the last [setPos] among [cs], and of the last
    [setAngle] among [cs] whose rotation is [accepted]. *)
Fixpoint last_pos (cs : list call) (default : Q * Q) : Q * Q :=
  match cs with
  | [] => default
  | SetPos x y :: rest => last_pos rest (x, y)
  | SetAngle _ :: rest => last_pos rest default
  end.

Fixpoint last_angle (accepted : Q -> bool) (cs : list call)
    (default : option Q) : option Q :=
  match cs with
  | [] => default
  | SetPos _ _ :: rest => last_angle accepted rest default
  | SetAngle degrees :: rest =>
      last_angle accepted rest
        (if accepted (rotation_angle degrees) then Some degrees else default)
  end.

End WithPygame.

Arguments width {Surface} _.
Arguments length {Surface} _.
Arguments pos {Surface} _.
Arguments angle {Surface} _.
Arguments init_img {Surface} _.
Arguments img {Surface} _.
Arguments setPos {Surface} x y self.
Arguments setAngle {Surface} transform_rotate degrees self.
Arguments blit {Surface Rect} get_rect surface_blit screen self.
Arguments perform {Surface} transform_rotate rotates c self.
Arguments perform_all {Surface} transform_rotate rotates cs self.

End Image.

(** ** sim.py: [Sim] *)

Module Sim.

(** One entry of [p.getContactPoints(...)]: a tuple whose components 1
    and 2 are the two bodies in contact; the later components (links,
    positions, forces) are not read by [Sim]. *)
Record contact : Type := {
  contactFlag : Z;
  bodyUniqueIdA : Z;
  bodyUniqueIdB : Z
}.

Definition vec3 : Type := list Q.

(** [math.pi]: the double nearest to pi, as an exact rational. *)
Definition math_pi : Q := 884279719003555 # 281474976710656.

(** The values held by the attributes of a [Sim] instance: [None], bools,
    body ids, and the dictionary from body id to [Car] object. *)
Inductive value (car : Type) : Type :=
| VNone
| VBool (b : bool)
| VInt (z : Z)
| VDict (d : list (Z * car)).
Arguments VNone {car}.
Arguments VBool {car} b.
Arguments VInt {car} z.
Arguments VDict {car} d.

(** What lies outside [sim.py]: the pybullet module [p] (a global physics
    world) and the repository's [Car] class, whose file is not part of the
    sources.  Their calls are taken to return; where one raises instead,
    the method that made it ends with that exception. *)
Record Engine : Type := {
  world : Type;
  quat : Type;
  car : Type;
  connect : bool -> world -> Z * world;
  getDataPath : string;
  setAdditionalSearchPath : string -> world -> world;
  loadURDF : string -> option vec3 -> option quat -> bool -> world -> Z * world;
  getQuaternionFromEuler : list Q -> quat;
  setGravity : Q -> Q -> Q -> world -> world;
  getContactPoints : Z -> world -> list contact;
  stepSimulation : world -> world;
  resetBasePositionAndOrientation :
    value car -> value car -> value car -> world -> result unit * world;
  Car : Z -> Q -> vec3 -> list Q -> world -> car * world;
  Car_step : car -> Q * Q -> Q -> world -> car * world
}.

Section WithEngine.

Context (E : Engine).

Local Abbreviation value := (value (car E)).

(** Calls into the engine, in the order they are made. *)
Inductive call : Type :=
| CallGetContactPoints (bodyA : Z)
| CallCarStep (id : Z) (control : Q * Q) (dt : Q)
| CallStepSimulation
| CallResetBase (body pos orient : value).

(** A [Sim] object is its attribute dictionary; the pybullet world is the
    module-level state behind [p]. *)
Record state : Type := {
  attrs : gmap string value;
  phys : world E;
  calls : list call
}.

Definition getattr (name : string) : M state value :=
  fun s =>
    match attrs s !! name with
    | Some v => (Ok v, s)
    | None => (Raise (AttributeError name), s)
    end.

Definition setattr (name : string) (v : value) : M state unit :=
  modify (fun s =>
    {| attrs := <[name := v]> (attrs s); phys := phys s; calls := calls s |}).

Definition log (c : call) : M state unit :=
  modify (fun s =>
    {| attrs := attrs s; phys := phys s; calls := calls s ++ [c] |}).

(** Run an engine operation on the world. *)
Definition engine {A} (f : world E -> A * world E) : M state A :=
  fun s =>
    let '(a, w) := f (phys s) in
    (Ok a, {| attrs := attrs s; phys := w; calls := calls s |}).

Definition engine_ (f : world E -> world E) : M state unit :=
  engine (fun w => (tt, f w)).

Definition truthy (v : value) : bool :=
  match v with
  | VNone => false
  | VBool b => b
  | VInt z => negb (z =? 0)
  | VDict d => negb (match d with [] => true | _ => false end)
  end.

(** [k in v] *)
Definition contains (k : Z) (v : value) : result bool :=
  match v with
  | VDict d => Ok (existsb (fun kv => fst kv =? k) d)
  | _ => Raise TypeError
  end.

(** [k == v] for an int [k]; a bool compares as 0 or 1. *)
Definition int_eq (k : Z) (v : value) : bool :=
  match v with
  | VInt z => k =? z
  | VBool b => k =? (if b then 1 else 0)
  | _ => false
  end.

(** [d[k] = c] on a dict that keeps insertion order. *)
Fixpoint dict_set (k : Z) (c : car E) (d : list (Z * car E)) : list (Z * car E) :=
  match d with
  | [] => [(k, c)]
  | (k', c') :: rest =>
      if k' =? k then (k, c) :: rest else (k', c') :: dict_set k c rest
  end.

(** [d[key]] on an argument dictionary. *)
Definition subscript {A} (d : gmap string A) (key : string) : M state A :=
  match d !! key with
  | Some a => ret a
  | None => raise (KeyError key)
  end.

Definition as_int (v : value) : M state Z :=
  match v with
  | VInt z => ret z
  | VBool b => ret (if b then 1 else 0)
  | _ => raise TypeError
  end.

Definition __init__ (urdf_paths : gmap string string)
    (field_setup : gmap string vec3) (render_enabled : bool) : M state unit :=
  client <- engine (connect E render_enabled);;
  setattr "_client" (VInt client);;;
  engine_ (setAdditionalSearchPath E (getDataPath E));;;
  plane <- engine (loadURDF E "plane.urdf" None None false);;
  setattr "_planeID" (VInt plane);;;
  let zeroOrient := getQuaternionFromEuler E [0; 0; 0]%Q in
  path <- subscript urdf_paths "ball";;
  at_ <- subscript field_setup "ball";;
  ball <- engine (loadURDF E path (Some at_) (Some zeroOrient) false);;
  setattr "_ballID" (VInt ball);;;
  path <- subscript urdf_paths "goal";;
  at_ <- subscript field_setup "goal";;
  goal <- engine (loadURDF E path (Some at_) (Some zeroOrient) true);;
  setattr "_goalID" (VInt goal);;;
  path <- subscript urdf_paths "sidewall";;
  at_ <- subscript field_setup "leftsidewall";;
  _ <- engine (loadURDF E path (Some at_) (Some zeroOrient) true);;
  path <- subscript urdf_paths "sidewall";;
  at_ <- subscript field_setup "rightsidewall";;
  _ <- engine (loadURDF E path (Some at_) (Some zeroOrient) true);;
  path <- subscript urdf_paths "backwall";;
  at_ <- subscript field_setup "frontbackwall";;
  _ <- engine (loadURDF E path (Some at_) (Some zeroOrient) true);;
  path <- subscript urdf_paths "backwall";;
  at_ <- subscript field_setup "backbackwall";;
  _ <- engine (loadURDF E path (Some at_) (Some zeroOrient) true);;
  setattr "_cars" (VDict []);;;
  path <- subscript urdf_paths "car";;
  at_ <- subscript field_setup "car";;
  carID <- engine (loadURDF E path (Some at_) (Some zeroOrient) false);;
  setattr "_carID" (VInt carID);;;
  carID <- getattr "_carID";;
  carID <- as_int carID;;
  at_ <- subscript field_setup "car";;
  c <- engine (Car E carID (1 # 2) at_ [0; 0; math_pi / 2]%Q);;
  cars <- getattr "_cars";;
  key <- getattr "_carID";;
  key <- as_int key;;
  match cars with
  | VDict d => setattr "_cars" (VDict (dict_set key c d))
  | _ => raise TypeError
  end;;;
  setattr "touched_last" VNone;;;
  setattr "scored" (VBool false);;;
  setattr "running" (VBool true);;;
  engine_ (setGravity E 0 0 (-10)).

(** The contact loop of [step] either runs through or hits the [return]. *)
Inductive flow : Type := Completed | Returned.

Fixpoint contact_loop (contacts : list contact) : M state flow :=
  match contacts with
  | [] => ret Completed
  | contact :: rest =>
      cars <- getattr "_cars";;
      hit <- lift (contains (bodyUniqueIdB contact) cars);;
      if (hit : bool) then
        setattr "touchedLast" (VInt (bodyUniqueIdB contact));;;
        contact_loop rest
      else
        goalID <- getattr "_goalID";;
        if int_eq (bodyUniqueIdB contact) goalID then
          setattr "scored" (VBool true);;;
          setattr "running" (VBool false);;;
          ret Returned
        else contact_loop rest
  end.

(** [for car in self._cars.values(): car.step(control, dt)].  A [Car] is
    mutated in place and is referenced from the dictionary only, so the
    stepped car replaces the old one under its key. *)
Fixpoint step_cars (entries : list (Z * car E)) (control : Q * Q) (dt : Q)
    : M state (list (Z * car E)) :=
  match entries with
  | [] => ret []
  | (id, c) :: rest =>
      log (CallCarStep id control dt);;;
      c' <- engine (Car_step E c control dt);;
      rest' <- step_cars rest control dt;;
      ret ((id, c') :: rest')
  end.

Definition step (throttle_cmd steering_cmd dt : Q) : M state unit :=
  running <- getattr "running";;
  if truthy running then
    ballID <- getattr "_ballID";;
    ballID <- as_int ballID;;
    log (CallGetContactPoints ballID);;;
    contacts <- engine (fun w => (getContactPoints E ballID w, w));;
    outcome <- contact_loop contacts;;
    match outcome with
    | Returned => ret tt
    | Completed =>
        cars <- getattr "_cars";;
        match cars with
        | VDict d =>
            d' <- step_cars d (throttle_cmd, steering_cmd) dt;;
            setattr "_cars" (VDict d')
        | _ => raise (AttributeError "values")
        end;;;
        log CallStepSimulation;;;
        engine_ (stepSimulation E)
    end
  else ret tt.

(** [for x in v] yields the keys of a dictionary. *)
Definition iterate (v : value) : M state (list value) :=
  match v with
  | VDict d => ret (map (fun kv => VInt (fst kv)) d)
  | _ => raise TypeError
  end.

(** [x.reset()]: none of [None], a bool, an int or a dict has a method
    [reset]. *)
Definition call_reset (x : value) : M state unit :=
  raise (AttributeError "reset").

Fixpoint for_each (xs : list value) (body : value -> M state unit)
    : M state unit :=
  match xs with
  | [] => ret tt
  | x :: rest => body x;;; for_each rest body
  end.

Definition reset : M state unit :=
  setattr "running" (VBool false);;;
  setattr "scored" (VBool false);;;
  setattr "touched_last" VNone;;;
  ballID <- getattr "_ballID";;
  ballInitPos <- getattr "_ballInitPos";;
  ballInitOrient <- getattr "_ballInitOrient";;
  log (CallResetBase ballID ballInitPos ballInitOrient);;;
  (fun s =>
     let '(r, w) :=
       resetBasePositionAndOrientation E ballID ballInitPos ballInitOrient
         (phys s) in
     (r, {| attrs := attrs s; phys := w; calls := calls s |}));;;
  cars <- getattr "cars";;
  xs <- iterate cars;;
  for_each xs call_reset;;;
  setattr "running" (VBool true).

(** A run of [step] calls, each with its own arguments. *)
Fixpoint steps (args : list (Q * Q * Q)) : M state unit :=
  match args with
  | [] => ret tt
  | (throttle_cmd, steering_cmd, dt) :: rest =>
      step throttle_cmd steering_cmd dt;;; steps rest
  end.

(** The state of a freshly connected process, before [Sim(...)] runs. *)
Definition fresh (w : world E) : state :=
  {| attrs := ∅; phys := w; calls := [] |}.

(** States a [Sim] object can be in: built by [__init__], then driven by
    [step] and [reset] (whether or not a call raises). *)
Inductive reachable : state -> Prop :=
| reach_init urdf_paths field_setup render_enabled w s :
    __init__ urdf_paths field_setup render_enabled (fresh w) = (Ok tt, s) ->
    reachable s
| reach_step throttle_cmd steering_cmd dt s r s' :
    reachable s ->
    step throttle_cmd steering_cmd dt s = (r, s') ->
    reachable s'
| reach_reset s r s' :
    reachable s ->
    reset s = (r, s') ->
    reachable s'.

(** *** The other methods of [Sim] *)

(** [Car.getPose], [Car.getVelocity] and the two pybullet queries. *)
Variable pose : Type.
Variable velocity : Type.
Variable Car_getPose : car E -> world E -> pose.
Variable Car_getVelocity : car E -> world E -> velocity.
Variable getBasePositionAndOrientation : Z -> world E -> pose.
Variable getBaseVelocity : Z -> world E -> velocity.

(** [list(self._cars.values())[0]] *)
Definition first_car : M state (car E) :=
  cars <- getattr "_cars";;
  match cars with
  | VDict d =>
      match map snd d with
      | c :: _ => ret c
      | [] => raise IndexError
      end
  | _ => raise (AttributeError "values")
  end.

Definition getCarPose : M state pose :=
  c <- first_car;;
  engine (fun w => (Car_getPose c w, w)).

Definition getCarVelocity : M state velocity :=
  c <- first_car;;
  engine (fun w => (Car_getVelocity c w, w)).

Definition getBallPose : M state pose :=
  ballID <- getattr "_ballID";;
  ballID <- as_int ballID;;
  engine (fun w => (getBasePositionAndOrientation ballID w, w)).

Definition getBallVelocity : M state velocity :=
  ballID <- getattr "_ballID";;
  ballID <- as_int ballID;;
  engine (fun w => (getBaseVelocity ballID w, w)).

(** *** The contact loop in closed form *)

(** Whether the loop over [contacts] reaches the [return]: some contact is
    with the goal and not with a car. *)
Fixpoint goal_hit (d : list (Z * car E)) (goalID : value)
    (contacts : list contact) : bool :=
  match contacts with
  | [] => false
  | c :: rest =>
      if existsb (fun kv => fst kv =? bodyUniqueIdB c) d then
        goal_hit d goalID rest
      else if int_eq (bodyUniqueIdB c) goalID then true
      else goal_hit d goalID rest
  end.

(** The car of the last car contact the loop sees, [seen] if there is none. *)
Fixpoint car_touched (d : list (Z * car E)) (goalID : value)
    (contacts : list contact) (seen : option Z) : option Z :=
  match contacts with
  | [] => seen
  | c :: rest =>
      if existsb (fun kv => fst kv =? bodyUniqueIdB c) d then
        car_touched d goalID rest (Some (bodyUniqueIdB c))
      else if int_eq (bodyUniqueIdB c) goalID then seen
      else car_touched d goalID rest seen
  end.

(** The attribute dictionary after the loop. *)
Definition after_contacts (d : list (Z * car E)) (goalID : value)
    (contacts : list contact) (a : gmap string value) : gmap string value :=
  let a1 :=
    match car_touched d goalID contacts None with
    | Some id => <["touchedLast" := VInt id]> a
    | None => a
    end in
  if goal_hit d goalID contacts then
    <["running" := VBool false]> (<["scored" := VBool true]> a1)
  else a1.

(** The cars after [car.step] on each, and the world after them all. *)
Fixpoint stepped_cars (d : list (Z * car E)) (control : Q * Q) (dt : Q)
    (w : world E) : list (Z * car E) * world E :=
  match d with
  | [] => ([], w)
  | (id, c) :: rest =>
      let '(c', w') := Car_step E c control dt w in
      let '(rest', w'') := stepped_cars rest control dt w' in
      ((id, c') :: rest', w'')
  end.

(** *** The shape of the attribute dictionary *)

(** What holds of the attributes in every state of a [Sim] object: the ids
    are ints, there is one car and it is stored under [_carID], the flags
    are bools and [scored] is never set while [running] is,
    [touched_last] is [None], and [touchedLast], once it exists, is the id
    of the car. *)
Definition shaped (a : gmap string value) : Prop :=
  (exists ballID, a !! "_ballID" = Some (VInt ballID)) /\
  (exists goalID, a !! "_goalID" = Some (VInt goalID)) /\
  (exists carID c,
     a !! "_carID" = Some (VInt carID) /\
     a !! "_cars" = Some (VDict [(carID, c)]) /\
     (a !! "touchedLast" = None \/ a !! "touchedLast" = Some (VInt carID))) /\
  (exists running scored,
     a !! "running" = Some (VBool running) /\
     a !! "scored" = Some (VBool scored) /\
     (scored = true -> running = false)) /\
  a !! "touched_last" = Some VNone /\
  a !! "_ballInitPos" = None.

(** The attribute dictionary [__init__] builds, assignment by assignment,
    from the ids the engine returned and the car object. *)
Definition built (client plane ballID goalID carID : Z) (c : car E)
    : gmap string value :=
  <["running" := VBool true]>
    (<["scored" := VBool false]>
       (<["touched_last" := VNone]>
          (<["_cars" := VDict [(carID, c)]]>
             (<["_carID" := VInt carID]>
                (<["_cars" := VDict []]>
                   (<["_goalID" := VInt goalID]>
                      (<["_ballID" := VInt ballID]>
                         (<["_planeID" := VInt plane]>
                            (<["_client" := VInt client]> ∅))))))))).

(** A caller that goes on calling methods, whether or not a call raised. *)
Inductive method : Type :=
| Step (throttle_cmd steering_cmd dt : Q)
| Reset.

Definition call_method (m : method) (s : state) : state :=
  match m with
  | Step throttle_cmd steering_cmd dt => snd (step throttle_cmd steering_cmd dt s)
  | Reset => snd (reset s)
  end.

Fixpoint drive (ms : list method) (s : state) : state :=
  match ms with
  | [] => s
  | m :: rest => drive rest (call_method m s)
  end.

(** The keys [__init__] reads in its two argument dictionaries. *)
Definition urdf_keys : list string :=
  ["ball"; "goal"; "sidewall"; "backwall"; "car"].

Definition field_keys : list string :=
  ["ball"; "goal"; "leftsidewall"; "rightsidewall"; "frontbackwall";
   "backbackwall"; "car"].

(** [keeps Q m]: a property [Q] of the attribute dictionary that holds before
    [m] holds after it, however [m] ends. *)
Definition keeps {A} (Q : gmap string value -> Prop) (m : M state A) : Prop :=
  forall s, Q (attrs s) -> Q (attrs (snd (m s))).

(** [sets Q m]: [Q] holds of the attribute dictionary whenever [m] returns. *)
Definition sets {A} (Q : gmap string value -> Prop) (m : M state A) : Prop :=
  forall s a s', m s = (Ok a, s') -> Q (attrs s').

(** What [reset] needs and what it lacks: [_ballID] is an attribute,
    [_ballInitPos] is not. *)
Definition reset_ready (a : gmap string value) : Prop :=
  is_Some (a !! "_ballID") /\ a !! "_ballInitPos" = None.

End WithEngine.

Arguments attrs {E} _.
Arguments phys {E} _.
Arguments calls {E} _.
Arguments keeps E {A} Q m.
Arguments sets E {A} Q m.
Arguments CallGetContactPoints {E} bodyA.
Arguments CallCarStep {E} id control dt.
Arguments CallStepSimulation {E}.
Arguments CallResetBase {E} body pos orient.
Arguments getCarPose E {pose} Car_getPose.
Arguments getCarVelocity E {velocity} Car_getVelocity.
Arguments getBallPose E {pose} getBasePositionAndOrientation.
Arguments getBallVelocity E {velocity} getBaseVelocity.

End Sim.

(** A small engine on which [Sim] can be run: bodies get consecutive ids,
    the contacts reported for the ball are fixed in advance, and a car
    records the controls it was stepped with. *)

Module ToyEngine.

Record world : Type := {
  next_id : Z;
  touching : list Sim.contact;
  ticks : nat
}.

Record car : Type := {
  body : Z;
  history : list (Q * Q * Q)
}.

Definition loadURDF (path : string) (at_ : option Sim.vec3)
    (orient : option (list Q)) (fixed : bool) (w : world) : Z * world :=
  (next_id w,
   {| next_id := next_id w + 1; touching := touching w; ticks := ticks w |}).

Definition engine : Sim.Engine := {|
  Sim.world := world;
  Sim.quat := list Q;
  Sim.car := car;
  Sim.connect := fun _ w => (0, w);
  Sim.getDataPath := "pybullet_data";
  Sim.setAdditionalSearchPath := fun _ w => w;
  Sim.loadURDF := loadURDF;
  Sim.getQuaternionFromEuler := fun _ => [0; 0; 0; 1]%Q;
  Sim.setGravity := fun _ _ _ w => w;
  Sim.getContactPoints := fun _ w => touching w;
  Sim.stepSimulation := fun w =>
    {| next_id := next_id w; touching := touching w; ticks := S (ticks w) |};
  Sim.resetBasePositionAndOrientation := fun _ _ _ w => (Raise TypeError, w);
  Sim.Car := fun id _ _ _ w => ({| body := id; history := [] |}, w);
  Sim.Car_step := fun c control dt w =>
    ({| body := body c; history := history c ++ [(control, dt)] |}, w)
|}.

Definition urdf_paths : gmap string string :=
  list_to_map [("ball", "ball.urdf"); ("goal", "goal.urdf");
               ("sidewall", "sidewall.urdf"); ("backwall", "backwall.urdf");
               ("car", "car.urdf")].

Definition field_setup : gmap string Sim.vec3 :=
  list_to_map [("ball", [0; 0; 1]%Q); ("goal", [0; 3; 0]%Q);
               ("leftsidewall", [-2; 0; 0]%Q); ("rightsidewall", [2; 0; 0]%Q);
               ("frontbackwall", [0; 3; 0]%Q); ("backbackwall", [0; -3; 0]%Q);
               ("car", [0; -1; 0]%Q)].

(** The world before [Sim(...)]: no body loaded yet. *)
Definition empty_world (contacts : list Sim.contact) : world :=
  {| next_id := 0; touching := contacts; ticks := 0 |}.

(** The state after [Sim(urdf_paths, field_setup, False)]. *)
Definition constructed (contacts : list Sim.contact) : Sim.state engine :=
  snd (Sim.__init__ engine urdf_paths field_setup false
         (Sim.fresh engine (empty_world contacts))).

(** A contact between the ball (body 1) and another body. *)
Definition ball_touches (other : Z) : Sim.contact :=
  {| Sim.contactFlag := 0; Sim.bodyUniqueIdA := 1; Sim.bodyUniqueIdB := other |}.

(** The bodies are loaded in the order plane, ball, goal, four walls, car:
    the goal is body 2 and the car is body 7. *)
Definition after_goal : Sim.state engine :=
  snd (Sim.step engine 1 0 (1 # 10) (constructed [ball_touches 2])).

(** A simulator where the ball touches the car, and one where it touches
    the car and the goal. *)
Definition touching_car : Sim.state engine := constructed [ball_touches 7].

Definition touching_car_and_goal : Sim.state engine :=
  constructed [ball_touches 7; ball_touches 2].

(** The getters of the small engine: the pose of a car is its body, its
    velocity the number of steps it took; the pose of a body is its id,
    its velocity the number of simulation steps. *)
Definition Car_getPose (c : car) (w : world) : Z := body c.

Definition Car_getVelocity (c : car) (w : world) : nat :=
  List.length (history c).

Definition getBasePositionAndOrientation (id : Z) (w : world) : Z := id.

Definition getBaseVelocity (id : Z) (w : world) : nat := ticks w.

End ToyEngine.

(** ** sim_node.py: [RacerSimROS] *)

Module RacerSimROS.

(** [Duration.to_sec()] of the rospy library.  A duration of [d]
    nanoseconds is held as [secs] and [nsecs], with [nsecs] from 0 to
    999999999, and [to_sec] is [float(secs) + float(nsecs) / 1e9], computed
    in doubles: both operations round. *)
Definition to_sec (d : Z) : Q :=
  let secs := d / 1000000000 in
  let nsecs := d mod 1000000000 in
  Float.round (inject_Z secs + Float.round (nsecs # 1000000000)).

Record Vector3 : Type := { x : Q; y : Q; z : Q }.

(** geometry_msgs/Twist, the inbound command. *)
Record Twist : Type := { linear : Vector3; angular : Vector3 }.

(** What the physics backend hands back: a number or a sequence of numbers
    (a point, a quaternion, a velocity vector). *)
Inductive pyval : Type :=
| PFloat (q : Q)
| PSeq (items : list Q).

(** [v[i]] *)
Definition index (v : pyval) (i : nat) : result Q :=
  match v with
  | PFloat _ => Raise TypeError
  | PSeq items =>
      match items !! i with
      | Some q => Ok q
      | None => Raise IndexError
      end
  end.

(** The [racersim] package is not part of the sources: its [Sim] is the
    physics backend, known here by the calls the node makes on it. *)
Record Backend : Type := {
  sim_state : Type;
  sim_step : Q -> Q -> Q -> sim_state -> sim_state;
  ball_getPoint : sim_state -> pyval;
  car_getPoint : sim_state -> pyval;
  car_getQuaternion : sim_state -> pyval;
  car_body_linearVelocity : sim_state -> pyval;
  car_body_angularVelocity : sim_state -> pyval;
  goal_getPoint : sim_state -> pyval
}.

(** Outbound messages.  A message is the record of the fields assigned on
    it, keyed by dotted path; fields never assigned keep their defaults. *)
Inductive msg_type : Type := PoseWithCovarianceStamped | Odometry.

Inductive atom : Type :=
| AFloat (q : Q)
| ATime (t : Z)
| AStr (s : string).

Record message : Type := {
  type_of : msg_type;
  fields : gmap string atom;
  undeclared : gmap string atom
}.

(** The top-level fields of each message type. *)
Definition slots (t : msg_type) : list string :=
  match t with
  | PoseWithCovarianceStamped => ["header"; "pose"]
  | Odometry => ["header"; "child_frame_id"; "pose"; "twist"]
  end.

Definition new (t : msg_type) : message :=
  {| type_of := t; fields := ∅; undeclared := ∅ |}.

(** What a local variable of [loop_once] can hold. *)
Inductive object : Type :=
| OMessage (m : message)
| OValue (v : pyval).

Inductive publisher : Type := ball_pub | bot_pub | goal_pub.

Definition topic (p : publisher) : string :=
  match p with
  | ball_pub => "ball_pose"
  | bot_pub => "bot_odom"
  | goal_pub => "goal_pose"
  end.

(** What a tick does to the outside, in order. *)
Inductive event : Type :=
| Acquire
| Release
| Step (linear angular dt : Q)
| Publish (pub : publisher) (o : object).

Section WithBackend.

Context (B : Backend).

(** Message classes are generated code outside the repository.  Whether an
    instance accepts an attribute its type does not declare is left open:
    [strict_slots = true] is a class with [__slots__] and no instance
    dictionary, where such an assignment raises [AttributeError]. *)
Variable strict_slots : bool.

(** The attributes of [self] that a tick or a callback reads or writes
    ([lock] is [True] when the lock is held), and the trace of what the node
    has done to the outside. *)
Record t : Type := {
  sim : sim_state B;
  lock : bool;
  last_command : option (Z * Q * Q);
  last_time : option Z;
  frame_id : string;
  timeout : Q;
  trace : list event
}.

Definition emit (e : event) : M t unit :=
  modify (fun self =>
    {| sim := sim self; lock := lock self;
       last_command := last_command self; last_time := last_time self;
       frame_id := frame_id self; timeout := timeout self;
       trace := trace self ++ [e] |}).

Definition set_lock (held : bool) : M t unit :=
  modify (fun self =>
    {| sim := sim self; lock := held;
       last_command := last_command self; last_time := last_time self;
       frame_id := frame_id self; timeout := timeout self;
       trace := trace self |}).

Definition set_last_command (c : option (Z * Q * Q)) : M t unit :=
  modify (fun self =>
    {| sim := sim self; lock := lock self;
       last_command := c; last_time := last_time self;
       frame_id := frame_id self; timeout := timeout self;
       trace := trace self |}).

Definition set_last_time (now : option Z) : M t unit :=
  modify (fun self =>
    {| sim := sim self; lock := lock self;
       last_command := last_command self; last_time := now;
       frame_id := frame_id self; timeout := timeout self;
       trace := trace self |}).

Definition set_sim (s : sim_state B) : M t unit :=
  modify (fun self =>
    {| sim := s; lock := lock self;
       last_command := last_command self; last_time := last_time self;
       frame_id := frame_id self; timeout := timeout self;
       trace := trace self |}).

(** [self.attr] *)
Definition read {A} (attr : t -> A) : M t A := fun self => (Ok (attr self), self).

(** [self.lock.acquire()]: waits for ever on a lock that is held. *)
Definition lock_acquire : M t unit :=
  held <- read lock;;
  if (held : bool) then block else set_lock true;;; emit Acquire.

(** [self.lock.release()] *)
Definition lock_release : M t unit :=
  held <- read lock;;
  if (held : bool) then set_lock false;;; emit Release else raise RuntimeError.

(** [self.sim.step(linear, angular, delta_t)] *)
Definition sim_step_ (linear angular delta_t : Q) : M t unit :=
  s <- read sim;;
  emit (Step linear angular delta_t);;;
  set_sim (sim_step B linear angular delta_t s).

(** [o.a.b.c = v] *)
Definition setattr (path : list string) (v : atom) (o : object) : M t object :=
  match o with
  | OValue _ => raise (AttributeError (hd "" path))
  | OMessage m =>
      let key := String.concat "." path in
      if bool_decide (hd "" path ∈ slots (type_of m)) then
        ret (OMessage {| type_of := type_of m;
                         fields := <[key := v]> (fields m);
                         undeclared := undeclared m |})
      else if strict_slots then raise (AttributeError key)
      else
        ret (OMessage {| type_of := type_of m;
                         fields := fields m;
                         undeclared := <[key := v]> (undeclared m) |})
  end.

(** [o[i]] on a local variable. *)
Definition getitem (o : object) (i : nat) : M t Q :=
  match o with
  | OValue v => lift (index v i)
  | OMessage _ => raise TypeError
  end.

(** [pub.publish(o)] *)
Definition publish (pub : publisher) (o : object) : M t unit :=
  emit (Publish pub o).

(** [command_cb]: one assignment of one freshly built tuple. *)
Definition command_cb (now : Z) (command_msg : Twist) : M t unit :=
  set_last_command (Some (now, x (linear command_msg), z (angular command_msg))).

(** Command callbacks that run while a tick is in progress. *)
Fixpoint callbacks (arrivals : list (Z * Twist)) : M t unit :=
  match arrivals with
  | [] => ret tt
  | (now, command_msg) :: rest => command_cb now command_msg;;; callbacks rest
  end.

(** A query on [self.sim], e.g. [self.sim.ball.getPoint()]. *)
Definition query (getter : sim_state B -> pyval) : M t object :=
  s <- read sim;;
  ret (OValue (getter s)).

(** Lines 90 to 96.  [self.last_command] is read twice, for the test and for
    the unpacking; [during] are the command callbacks that run in between
    (they do not wait for the lock).  Callbacks that run elsewhere in the
    tick read and write nothing the tick reads later, so they are the same
    as callbacks before or after the tick. *)
Definition iterate_game (now last_time : Z) (during : list (Z * Twist))
    : M t unit :=
  seen <- read last_command;;
  callbacks during;;;
  match seen with
  | Some _ =>
      let delta_t := to_sec (now - last_time) in
      unpacked <- read last_command;;
      match unpacked with
      | Some (last_command_time, linear, angular) =>
          timeout <- read timeout;;
          if Qle_bool timeout (to_sec (now - last_command_time)) then
            sim_step_ 0 0 delta_t
          else
            sim_step_ linear angular delta_t
      | None => raise TypeError
      end
  | None => ret tt
  end.

(** Lines 98 to 105. *)
Definition publish_ball (now : Z) : M t unit :=
  let ball_msg := OMessage (new PoseWithCovarianceStamped) in
  ball_msg <- setattr ["header"; "stamp"] (ATime now) ball_msg;;
  frame <- read frame_id;;
  ball_msg <- setattr ["frame_id"] (AStr frame) ball_msg;;
  ball_point <- query (ball_getPoint B);;
  v <- getitem ball_point 0;;
  ball_msg <- setattr ["pose"; "pose"; "position"; "x"] (AFloat v) ball_msg;;
  v <- getitem ball_point 1;;
  ball_msg <- setattr ["pose"; "pose"; "position"; "y"] (AFloat v) ball_msg;;
  publish ball_pub ball_msg.

(** Lines 107 to 123. *)
Definition publish_bot (now : Z) : M t unit :=
  let bot_msg := OMessage (new Odometry) in
  bot_msg <- setattr ["header"; "stamp"] (ATime now) bot_msg;;
  frame <- read frame_id;;
  bot_msg <- setattr ["header"; "frame_id"] (AStr frame) bot_msg;;
  bot_point <- query (car_getPoint B);;
  v <- getitem bot_point 0;;
  bot_msg <- setattr ["pose"; "pose"; "position"; "x"] (AFloat v) bot_msg;;
  v <- getitem bot_point 1;;
  bot_msg <- setattr ["pose"; "pose"; "position"; "y"] (AFloat v) bot_msg;;
  bot_quat <- query (car_getQuaternion B);;
  v <- getitem bot_quat 0;;
  bot_msg <- setattr ["pose"; "pose"; "orientation"; "w"] (AFloat v) bot_msg;;
  v <- getitem bot_quat 3;;
  bot_msg <- setattr ["pose"; "pose"; "orientation"; "z"] (AFloat v) bot_msg;;
  linear <- query (car_body_linearVelocity B);;
  v <- getitem linear 0;;
  bot_msg <- setattr ["twist"; "twist"; "linear"; "x"] (AFloat v) bot_msg;;
  v <- getitem linear 1;;
  bot_msg <- setattr ["twist"; "twist"; "linear"; "y"] (AFloat v) bot_msg;;
  angular <- query (car_body_angularVelocity B);;
  v <- getitem angular 0;;
  bot_msg <- setattr ["twist"; "twist"; "angular"; "x"] (AFloat v) bot_msg;;
  v <- getitem angular 1;;
  bot_msg <- setattr ["twist"; "twist"; "angular"; "y"] (AFloat v) bot_msg;;
  publish bot_pub bot_msg.

(** Lines 125 to 132.  Line 129 rebinds [goal_msg] to the point, so the
    assignments of lines 130 and 131 and the [publish] of line 132 act on
    the point, and the publisher of line 132 is [self.ball_pub]. *)
Definition publish_goal (now : Z) : M t unit :=
  let goal_msg := OMessage (new PoseWithCovarianceStamped) in
  goal_msg <- setattr ["header"; "stamp"] (ATime now) goal_msg;;
  frame <- read frame_id;;
  goal_msg <- setattr ["frame_id"] (AStr frame) goal_msg;;
  goal_msg <- query (goal_getPoint B);;
  v <- getitem goal_msg 0;;
  goal_msg <- setattr ["pose"; "pose"; "position"; "x"] (AFloat v) goal_msg;;
  v <- getitem goal_msg 1;;
  goal_msg <- setattr ["pose"; "pose"; "position"; "y"] (AFloat v) goal_msg;;
  publish ball_pub goal_msg.

(** [loop_once], with [now] the value of [rospy.Time.now()] at line 86 and
    [during] the command callbacks that run while the tick is in progress. *)
Definition loop_once_with (now : Z) (during : list (Z * Twist)) : M t unit :=
  lock_acquire;;;
  previous <- read last_time;;
  match previous with
  | Some last_time =>
      iterate_game now last_time during;;;
      publish_ball now;;;
      publish_bot now;;;
      publish_goal now
  | None => callbacks during
  end;;;
  set_last_time (Some now);;;
  lock_release.

(** [loop_once] with no callback running during the tick. *)
Definition loop_once (now : Z) : M t unit := loop_once_with now [].

(** The node as [__init__] leaves it when the loop starts: no command, no
    tick yet, the lock free. *)
Definition __init__ (s : sim_state B) (frame_id : string) (timeout : Q) : t :=
  {| sim := s; lock := false; last_command := None; last_time := None;
     frame_id := frame_id; timeout := timeout; trace := [] |}.

(** What happens to the node, in order: a tick of the loop of [__init__]
    (with the callbacks that run during it), or a command callback between
    two ticks. *)
Inductive input : Type :=
| Tick (now : Z) (during : list (Z * Twist))
| Command (now : Z) (command_msg : Twist).

(** The loop of [__init__].  An exception raised by [loop_once] is not
    caught by the loop, so the run ends there. *)
Fixpoint spin (schedule : list input) : M t unit :=
  match schedule with
  | [] => ret tt
  | Tick now during :: rest => loop_once_with now during;;; spin rest
  | Command now command_msg :: rest => command_cb now command_msg;;; spin rest
  end.

(** [self] with more events on its trace and nothing else changed. *)
Definition add_events (evs : list event) (self : t) : t :=
  {| sim := sim self; lock := lock self;
     last_command := last_command self; last_time := last_time self;
     frame_id := frame_id self; timeout := timeout self;
     trace := trace self ++ evs |}.

(** [self] once [lock_acquire] has gone through. *)
Definition locked (self : t) : t :=
  {| sim := sim self; lock := true;
     last_command := last_command self; last_time := last_time self;
     frame_id := frame_id self; timeout := timeout self;
     trace := trace self ++ [Acquire] |}.

(** [self.last_command] after the callbacks [arrivals] have run. *)
Fixpoint written (arrivals : list (Z * Twist)) (c : option (Z * Q * Q))
    : option (Z * Q * Q) :=
  match arrivals with
  | [] => c
  | (now, command_msg) :: rest =>
      written rest (Some (now, x (linear command_msg), z (angular command_msg)))
  end.


(** The pair lines 93 to 96 hand to [step] for the unpacked tuple [c]. *)
Definition decay (now : Z) (timeout : Q) (c : Z * Q * Q) : Q * Q :=
  let '(last_command_time, linear, angular) := c in
  if Qle_bool timeout (to_sec (now - last_command_time)) then (0, 0)%Q
  else (linear, angular).

(** [self] after lines 90 to 96. *)
Definition after_game (now previous : Z) (during : list (Z * Twist))
    (self : t) : t :=
  let c' := written during (last_command self) in
  match last_command self, c' with
  | Some _, Some c =>
      let delta_t := to_sec (now - previous) in
      let '(linear, angular) := decay now (timeout self) c in
      {| sim := sim_step B linear angular delta_t (sim self);
         lock := lock self; last_command := c';
         last_time := last_time self;
         frame_id := frame_id self; timeout := timeout self;
         trace := trace self ++ [Step linear angular delta_t] |}
  | _, _ =>
      {| sim := sim self; lock := lock self; last_command := c';
         last_time := last_time self;
         frame_id := frame_id self; timeout := timeout self;
         trace := trace self |}
  end.

(** The [step] call of lines 90 to 96, if there is one. *)
Definition game_steps (now previous : Z) (during : list (Z * Twist))
    (self : t) : list event :=
  match last_command self, written during (last_command self) with
  | Some _, Some c =>
      let '(linear, angular) := decay now (timeout self) c in
      [Step linear angular (to_sec (now - previous))]
  | _, _ => []
  end.

(** The events a computation adds to the trace from state [self]. *)
Definition events {A} (m : M t A) (self : t) : list event :=
  drop (List.length (trace self)) (trace (snd (m self))).

Definition is_step (e : event) : bool :=
  match e with Step _ _ _ => true | _ => false end.

Definition is_publish (e : event) : bool :=
  match e with Publish _ _ => true | _ => false end.

Definition published_on (pub : publisher) (e : event) : bool :=
  match e with
  | Publish pub' _ => bool_decide (topic pub' = topic pub)
  | _ => false
  end.

Definition is_command (i : input) : bool :=
  match i with Command _ _ => true | Tick _ _ => false end.

(** Three shapes of computation met in a tick: one that leaves the node as
    it is and returns a value or raises; one that raises, or else returns
    after one [publish] on [pub]; one that always raises. *)
Definition quiet {A} (P : A -> Prop) (m : M t A) : Prop :=
  forall self,
    (exists a, m self = (Ok a, self) /\ P a) \/
    (exists e, m self = (Raise e, self)).

Definition emits_one (pub : publisher) (m : M t unit) : Prop :=
  forall self,
    (exists e, m self = (Raise e, self)) \/
    (exists o, m self = (Ok tt, add_events [Publish pub o] self)).

Definition fails {A} (m : M t A) : Prop :=
  forall self, exists e, m self = (Raise e, self).

(** *** Runs and backends *)

Definition is_tick (i : input) : bool := negb (is_command i).

(** The number of ticks in a schedule. *)
Definition ticks (schedule : list input) : nat :=
  List.length (List.filter is_tick schedule).

(** [v] is a sequence of at least [n] numbers. *)
Definition at_least (n : nat) (v : pyval) : Prop :=
  exists items, v = PSeq items /\ (n <= List.length items)%nat.

(** A backend whose queries return what lines 102 to 122 index: points and
    velocities of two numbers, quaternions of four. *)
Definition supplies_sequences : Prop :=
  forall s,
    at_least 2 (ball_getPoint B s) /\
    at_least 2 (car_getPoint B s) /\
    at_least 4 (car_getQuaternion B s) /\
    at_least 2 (car_body_linearVelocity B s) /\
    at_least 2 (car_body_angularVelocity B s).

(** [v[i]] when there is one. *)
Definition item (v : pyval) (i : nat) : option Q :=
  match v with
  | PSeq items => items !! i
  | PFloat _ => None
  end.

End WithBackend.

Arguments sim {B} _.
Arguments lock {B} _.
Arguments last_command {B} _.
Arguments last_time {B} _.
Arguments frame_id {B} _.
Arguments timeout {B} _.
Arguments trace {B} _.
Arguments add_events {B} evs self.
Arguments locked {B} self.
Arguments events {B A} m self.
Arguments quiet {B A} P m.
Arguments emits_one {B} pub m.
Arguments fails {B A} m.

End RacerSimROS.

(** A small backend on which the node can be run: the simulator state is
    the list of [step] calls received, and every query returns a fixed
    sequence. *)

Module ToyBackend.

Import RacerSimROS.

Definition backend : Backend := {|
  sim_state := list (Q * Q * Q);
  sim_step := fun linear angular dt s => s ++ [(linear, angular, dt)];
  ball_getPoint := fun _ => PSeq [1; 2]%Q;
  car_getPoint := fun _ => PSeq [3; 4]%Q;
  car_getQuaternion := fun _ => PSeq [1; 0; 0; 0]%Q;
  car_body_linearVelocity := fun _ => PSeq [0; 0]%Q;
  car_body_angularVelocity := fun _ => PSeq [0; 0]%Q;
  goal_getPoint := fun _ => PSeq [5; 6]%Q
|}.

(** The node when its loop starts: frame "sim", timeout 1.0 s. *)
Definition node : t backend := __init__ backend [] "sim" 1.

Definition twist (linear_x angular_z : Q) : Twist :=
  {| linear := {| x := linear_x; y := 0; z := 0 |};
     angular := {| x := 0; y := 0; z := angular_z |} |}.

(** A command [(1.0, 0.0)] arrives at time 0, before any tick. *)
Definition commanded : t backend :=
  snd (command_cb backend 0 (twist 1 0) node).

(** ... and the first tick runs at 10 ns. *)
Definition after_first_tick : t backend :=
  snd (loop_once backend false 10 commanded).

(** The first tick at 10 ns, no command received. *)
Definition idle_after_first_tick : t backend :=
  snd (loop_once backend false 10 node).


(** The same backend, except that the angular velocity of the car body is
    a number. *)
Definition scalar_backend : Backend := {|
  sim_state := list (Q * Q * Q);
  sim_step := fun linear angular dt s => s ++ [(linear, angular, dt)];
  ball_getPoint := fun _ => PSeq [1; 2]%Q;
  car_getPoint := fun _ => PSeq [3; 4]%Q;
  car_getQuaternion := fun _ => PSeq [1; 0; 0; 0]%Q;
  car_body_linearVelocity := fun _ => PSeq [0; 0]%Q;
  car_body_angularVelocity := fun _ => PFloat 0;
  goal_getPoint := fun _ => PSeq [5; 6]%Q
|}.

(** On it, a node that got the command [(1.0, 0.0)] at time 0 and ran its
    first tick at 10 ns. *)
Definition scalar_after_first_tick : t scalar_backend :=
  snd (loop_once scalar_backend false 10
         (snd (command_cb scalar_backend 0 (twist 1 0)
                 (__init__ scalar_backend [] "sim" 1)))).

End ToyBackend.

(** ** run_drl.py: the training script *)

Module RunDrl.

Inductive interface : Type :=
| SnakeInterface
| CartpoleInterface
| CartpoleDirectInterface.

(** What the script does to the outside, in order.  The factories of
    [rocket_league_drl] are known by their calls only: the agent made from
    an interface, and the trainer or evaluator made from that agent, are
    named by the interface. *)
Inductive action : Type :=
| Print (line : string)
| MakeAgent (i : interface)
| MakeTrainer (i : interface)
| RunTrainer (i : interface)
| MakeEvaluator (i : interface)
| RunEvaluator (i : interface).

Inductive error : Type :=
| AssertionError
| IndexError
| NameError (name : string).

(** The [if]/[elif] chain on [env]; [None] is the [else] branch, which
    binds no [Interface]. *)
Definition select (env : string) : option interface :=
  if String.eqb env "snake" then Some SnakeInterface
  else if String.eqb env "cartpole_ros" then Some CartpoleInterface
  else if String.eqb env "cartpole_direct" then Some CartpoleDirectInterface
  else None.

(** The script, run with [sys.argv = argv]: what it did, and the exception
    that ended it, if any. *)
Definition main (argv : list string) : list action * option error :=
  if negb (2 <=? List.length argv)%nat then ([], Some AssertionError)
  else
    match argv !! 1%nat with
    | None => ([], Some IndexError)
    | Some env =>
        match argv !! 2%nat with
        | None => ([], Some IndexError)
        | Some mode =>
            let out :=
              [Print (String.append "Running "
                        (String.append env
                           (String.append " in "
                              (String.append mode " mode."))))] in
            match select env with
            | None =>
                (out ++ [Print (String.append "Unrecognized environment "
                                  (String.append env "!"))],
                 Some (NameError "Interface"))
            | Some i =>
                let out := out ++ [MakeAgent i] in
                if String.eqb mode "train" then
                  (out ++ [MakeTrainer i; RunTrainer i], None)
                else if String.eqb mode "eval" then
                  (out ++ [MakeEvaluator i; RunEvaluator i], None)
                else
                  (out ++ [Print "Unrecognized mode!"], None)
            end
        end
    end.

End RunDrl.

(** * Properties *)

(** ** The monad *)

Lemma bind_ok {S A B} (m : M S A) (k : A -> M S B) s a s' :
  m s = (Ok a, s') -> bind m k s = k a s'.
Proof. intros H. unfold bind. rewrite H. reflexivity. Qed.

Lemma bind_raise {S A B} (m : M S A) (k : A -> M S B) s e s' :
  m s = (Raise e, s') -> bind m k s = (Raise e, s').
Proof. intros H. unfold bind. rewrite H. reflexivity. Qed.

Lemma bind_block {S A B} (m : M S A) (k : A -> M S B) s s' :
  m s = (Block, s') -> bind m k s = (Block, s').
Proof. intros H. unfold bind. rewrite H. reflexivity. Qed.

(** *** Rounding to doubles *)

Module FloatFacts.

Lemma round_pos_nonneg n d : (0 <= Float.round_pos n d)%Q.
Proof.
  unfold Float.round_pos.
  set (e0 := Z.log2 (Zpos n) - Z.log2 (Zpos d)).
  set (e := if _ <? _ then e0 - 1 else e0).
  set (s := e - 52).
  set (num := Zpos n * 2 ^ Z.max 0 (- s)).
  set (den := Zpos d * 2 ^ Z.max 0 s).
  assert (Hnum : 0 <= num).
  { unfold num. apply Z.mul_nonneg_nonneg; [lia|]. apply Z.pow_nonneg. lia. }
  assert (Hden : 0 < den).
  { unfold den. apply Z.mul_pos_pos; [lia|]. apply Z.pow_pos_nonneg; lia. }
  assert (Hk : 0 <= num / den) by (apply Z.div_pos; assumption).
  set (m := if 2 * (num mod den) <? den then num / den
            else if den <? 2 * (num mod den) then num / den + 1
            else if Z.even (num / den) then num / den else num / den + 1).
  assert (Hm : 0 <= m).
  { unfold m. destruct (2 * (num mod den) <? den); [exact Hk|].
    destruct (den <? 2 * (num mod den)); [lia|].
    destruct (Z.even (num / den)); lia. }
  destruct (0 <=? s) eqn:Hs.
  - unfold Qle, inject_Z. simpl. apply Z.leb_le in Hs.
    assert (0 <= m * 2 ^ s) by (apply Z.mul_nonneg_nonneg; [exact Hm|apply Z.pow_nonneg; lia]).
    lia.
  - unfold Qle. simpl. lia.
Qed.

Lemma round_nonpos q : (q <= 0)%Q -> (Float.round q <= 0)%Q.
Proof.
  destruct q as [n d]. unfold Float.round, Qle. cbn [Qnum Qden].
  destruct n as [|n|n]; intros H.
  - simpl. lia.
  - exfalso. simpl in H. lia.
  - pose proof (round_pos_nonneg n d) as Hr. unfold Qle in Hr.
    simpl in *. lia.
Qed.

Lemma round_pos_below_one n d :
  Zpos n < Zpos d -> (Float.round_pos n d <= 1)%Q.
Proof.
  intros Hlt. unfold Float.round_pos.
  set (e0 := Z.log2 (Zpos n) - Z.log2 (Zpos d)).
  assert (He0 : e0 <= 0).
  { unfold e0. pose proof (Z.log2_le_mono (Zpos n) (Zpos d)). lia. }
  set (e := if _ <? _ then e0 - 1 else e0).
  assert (He : e <= 0) by (unfold e; destruct (_ <? _); lia).
  set (s := e - 52).
  assert (Hs : s < 0) by (unfold s; lia).
  replace (Z.max 0 s) with 0 by lia.
  replace (Z.max 0 (- s)) with (- s) by lia.
  rewrite Z.pow_0_r, Z.mul_1_r.
  set (P := 2 ^ (- s)).
  assert (HP : 0 < P) by (apply Z.pow_pos_nonneg; lia).
  set (k := (Zpos n * P) / Zpos d).
  assert (Hk : k < P).
  { apply Z.div_lt_upper_bound; [lia|]. nia. }
  set (m := if 2 * ((Zpos n * P) mod Zpos d) <? Zpos d then k
            else if Zpos d <? 2 * ((Zpos n * P) mod Zpos d) then k + 1
            else if Z.even k then k else k + 1).
  assert (Hm : m <= P).
  { unfold m. destruct (2 * ((Zpos n * P) mod Zpos d) <? Zpos d); [lia|].
    destruct (Zpos d <? 2 * ((Zpos n * P) mod Zpos d)); [lia|].
    destruct (Z.even k); lia. }
  destruct (0 <=? s) eqn:E; [apply Z.leb_le in E; lia|].
  unfold Qle. cbn [Qnum Qden]. rewrite Z2Pos.id by exact HP. lia.
Qed.

End FloatFacts.

Lemma Qle_bool_false (x y : Q) : Qle_bool x y = false <-> (y < x)%Q.
Proof.
  split.
  - intros H. apply Qnot_le_lt. intros Hle.
    apply Qle_bool_iff in Hle. congruence.
  - intros H. destruct (Qle_bool x y) eqn:E; [|reflexivity].
    apply Qle_bool_iff in E. exfalso. exact (Qlt_not_le _ _ H E).
Qed.

(** ** sim.py *)

Module SimFacts.

Import Sim.

Section WithEngine.

Context (E : Engine).

Local Abbreviation value := (value (car E)).
Local Abbreviation state := (state E).

(** *** Which attributes a method can write *)

Lemma keeps_ret {A} Q (a : A) : keeps E Q (ret a).
Proof. intros s H. exact H. Qed.

Lemma keeps_raise {A} Q e : keeps E Q (@raise state A e).
Proof. intros s H. exact H. Qed.

Lemma keeps_lift {A} Q (r : result A) : keeps E Q (lift r).
Proof. intros s H. exact H. Qed.

Lemma keeps_bind {A B} Q (m : M state A) (k : A -> M state B) :
  keeps E Q m -> (forall a, keeps E Q (k a)) -> keeps E Q (bind m k).
Proof.
  intros Hm Hk s H. unfold bind.
  specialize (Hm s H).
  destruct (m s) as [[a | e |] s1]; simpl in *; try exact Hm.
  apply Hk. exact Hm.
Qed.

Lemma keeps_getattr Q name : keeps E Q (getattr E name).
Proof. intros s H. unfold getattr. destruct (attrs s !! name); exact H. Qed.

Lemma keeps_setattr (Q : gmap string value -> Prop) name v :
  (forall a, Q a -> Q (<[name := v]> a)) -> keeps E Q (setattr E name v).
Proof. intros HQ s H. simpl. apply HQ, H. Qed.

Lemma keeps_log Q c : keeps E Q (log E c).
Proof. intros s H. exact H. Qed.

Lemma keeps_engine {A} Q (f : world E -> A * world E) : keeps E Q (engine E f).
Proof. intros s H. unfold engine. destruct (f (phys s)). exact H. Qed.

Lemma keeps_engine_ Q f : keeps E Q (engine_ E f).
Proof. apply keeps_engine. Qed.

Lemma keeps_subscript {A} Q (d : gmap string A) key : keeps E Q (subscript E d key).
Proof. intros s H. unfold subscript. destruct (d !! key); exact H. Qed.

Lemma keeps_as_int Q v : keeps E Q (as_int E v).
Proof. intros s H. destruct v; exact H. Qed.

(** A property that no assignment to [touchedLast], [scored], [running] or
    [_cars] can break is kept by [step]. *)
Section StepKeeps.

Variable Q : gmap string value -> Prop.
Hypothesis Q_touchedLast : forall a v, Q a -> Q (<["touchedLast" := v]> a).
Hypothesis Q_scored : forall a v, Q a -> Q (<["scored" := v]> a).
Hypothesis Q_running : forall a v, Q a -> Q (<["running" := v]> a).
Hypothesis Q_cars : forall a v, Q a -> Q (<["_cars" := v]> a).

Lemma keeps_contact_loop contacts : keeps E Q (contact_loop E contacts).
Proof.
  induction contacts as [|c rest IH]; simpl.
  - apply keeps_ret.
  - apply keeps_bind; [apply keeps_getattr | intros cars].
    apply keeps_bind; [apply keeps_lift | intros hit].
    destruct hit.
    + apply keeps_bind; [apply keeps_setattr; auto | intros _; exact IH].
    + apply keeps_bind; [apply keeps_getattr | intros goalID].
      destruct (int_eq E (bodyUniqueIdB c) goalID); [|exact IH].
      apply keeps_bind; [apply keeps_setattr; auto | intros _].
      apply keeps_bind; [apply keeps_setattr; auto | intros _].
      apply keeps_ret.
Qed.

Lemma keeps_step_cars entries control dt : keeps E Q (step_cars E entries control dt).
Proof.
  induction entries as [|[id c] rest IH]; simpl.
  - apply keeps_ret.
  - apply keeps_bind; [apply keeps_log | intros _].
    apply keeps_bind; [apply keeps_engine | intros c'].
    apply keeps_bind; [exact IH | intros rest'].
    apply keeps_ret.
Qed.

Lemma keeps_step throttle_cmd steering_cmd dt :
  keeps E Q (step E throttle_cmd steering_cmd dt).
Proof.
  unfold step.
  apply keeps_bind; [apply keeps_getattr | intros running].
  destruct (truthy E running); [|apply keeps_ret].
  apply keeps_bind; [apply keeps_getattr | intros ballID].
  apply keeps_bind; [apply keeps_as_int | intros b].
  apply keeps_bind; [apply keeps_log | intros _].
  apply keeps_bind; [apply keeps_engine | intros contacts].
  apply keeps_bind; [apply keeps_contact_loop | intros outcome].
  destruct outcome; [|apply keeps_ret].
  apply keeps_bind; [apply keeps_getattr | intros cars].
  apply keeps_bind.
  - destruct cars; try apply keeps_raise.
    apply keeps_bind; [apply keeps_step_cars | intros d'].
    apply keeps_setattr; auto.
  - intros _. apply keeps_bind; [apply keeps_log | intros _].
    apply keeps_engine_.
Qed.

End StepKeeps.


Lemma keeps_for_each Q xs (body : value -> M state unit) :
  (forall x, keeps E Q (body x)) -> keeps E Q (for_each E xs body).
Proof.
  intros Hbody. induction xs as [|x rest IH]; simpl.
  - apply keeps_ret.
  - apply keeps_bind; [apply Hbody | intros _; exact IH].
Qed.

(** A property that no assignment to [running], [scored] or [touched_last]
    can break is kept by [reset]. *)
Lemma keeps_reset (Q : gmap string value -> Prop) :
  (forall a v, Q a -> Q (<["running" := v]> a)) ->
  (forall a v, Q a -> Q (<["scored" := v]> a)) ->
  (forall a v, Q a -> Q (<["touched_last" := v]> a)) ->
  keeps E Q (reset E).
Proof.
  intros Hrunning Hscored Htouched. unfold reset.
  apply keeps_bind; [apply keeps_setattr; auto | intros _].
  apply keeps_bind; [apply keeps_setattr; auto | intros _].
  apply keeps_bind; [apply keeps_setattr; auto | intros _].
  apply keeps_bind; [apply keeps_getattr | intros ballID].
  apply keeps_bind; [apply keeps_getattr | intros ballInitPos].
  apply keeps_bind; [apply keeps_getattr | intros ballInitOrient].
  apply keeps_bind; [apply keeps_log | intros _].
  apply keeps_bind.
  { intros s H. simpl.
    destruct (resetBasePositionAndOrientation E _ _ _ (phys s)). exact H. }
  intros _.
  apply keeps_bind; [apply keeps_getattr | intros cars].
  apply keeps_bind; [destruct cars; first [apply keeps_ret | apply keeps_raise] | intros xs].
  apply keeps_bind; [apply keeps_for_each; intros x; apply keeps_raise | intros _].
  apply keeps_setattr; auto.
Qed.

Lemma sets_bind_r {A C} Q (m : M state A) (k : A -> M state C) :
  (forall a, sets E Q (k a)) -> sets E Q (bind m k).
Proof.
  intros Hk s c s' H. unfold bind in H.
  destruct (m s) as [[a | e |] s1]; try discriminate.
  exact (Hk a s1 c s' H).
Qed.

Lemma sets_bind_l {A C} Q (m : M state A) (k : A -> M state C) :
  sets E Q m -> (forall a, keeps E Q (k a)) -> sets E Q (bind m k).
Proof.
  intros Hm Hk s c s' H. unfold bind in H.
  destruct (m s) as [[a | e |] s1] eqn:Em; try discriminate.
  specialize (Hk a s1 (Hm s a s1 Em)). rewrite H in Hk. exact Hk.
Qed.

Lemma sets_setattr (Q : gmap string value -> Prop) name v :
  (forall a, Q (<[name := v]> a)) -> sets E Q (setattr E name v).
Proof. intros HQ s a s' H. injection H as _ <-. apply HQ. Qed.

(** Steps of [__init__] after which a property that survives every
    assignment still holds. *)
Ltac keeps_any_assignment :=
  repeat first
    [ apply keeps_ret | apply keeps_raise | apply keeps_getattr
    | apply keeps_engine_ | apply keeps_engine | apply keeps_subscript
    | apply keeps_as_int | apply keeps_log
    | apply keeps_setattr; solve [auto]
    | apply keeps_bind; [|intros ?]
    | match goal with
      | |- keeps _ _ (match ?x with _ => _ end) => destruct x
      end ].

Lemma init_sets_ballID urdf_paths field_setup render_enabled :
  sets E (fun a => is_Some (a !! "_ballID"))
    (__init__ E urdf_paths field_setup render_enabled).
Proof.
  assert (HQ : forall name (a : gmap string value) v,
            is_Some (a !! "_ballID") -> is_Some (<[name := v]> a !! "_ballID")).
  { intros name a v H. apply lookup_insert_is_Some'. right. exact H. }
  unfold __init__.
  do 8 (apply sets_bind_r; intros ?).
  apply sets_bind_l.
  - apply sets_setattr. intros ?. rewrite lookup_insert_eq. eexists. reflexivity.
  - intros _. keeps_any_assignment.
Qed.

Lemma no_ballInitPos_insert name (a : gmap string value) v :
  name <> "_ballInitPos" ->
  a !! "_ballInitPos" = None -> <[name := v]> a !! "_ballInitPos" = None.
Proof. intros Hne H. rewrite lookup_insert_ne by exact Hne. exact H. Qed.

Lemma reset_ready_insert name (a : gmap string value) v :
  name <> "_ballInitPos" ->
  reset_ready E a -> reset_ready E (<[name := v]> a).
Proof.
  intros Hne [Hball Hpos]. split.
  - apply lookup_insert_is_Some'. right. exact Hball.
  - apply no_ballInitPos_insert; assumption.
Qed.

(** No attribute [__init__] assigns is called [_ballInitPos]. *)
Lemma init_no_ballInitPos urdf_paths field_setup render_enabled :
  keeps E (fun a => a !! "_ballInitPos" = None)
    (__init__ E urdf_paths field_setup render_enabled).
Proof.
  unfold __init__.
  repeat first
    [ apply keeps_ret | apply keeps_raise | apply keeps_getattr
    | apply keeps_engine_ | apply keeps_engine | apply keeps_subscript
    | apply keeps_as_int
    | apply keeps_setattr; intros ? ?; apply no_ballInitPos_insert;
        [discriminate | assumption]
    | apply keeps_bind; [|intros ?]
    | match goal with
      | |- keeps _ _ (match ?x with _ => _ end) => destruct x
      end ].
Qed.

Lemma reachable_reset_ready (s : state) :
  reachable E s -> reset_ready E (attrs s).
Proof.
  induction 1 as [urdf_paths field_setup render_enabled w s Hinit
                 | throttle_cmd steering_cmd dt s r s' Hs IH Hstep
                 | s r s' Hs IH Hreset].
  - split.
    + exact (init_sets_ballID _ _ _ _ _ _ Hinit).
    + pose proof (init_no_ballInitPos urdf_paths field_setup render_enabled
                    (fresh E w)) as H.
      rewrite Hinit in H. apply H. apply lookup_empty.
  - pose proof (keeps_step (reset_ready E)) as H.
    specialize (H ltac:(intros; apply reset_ready_insert; [discriminate | assumption])
                  ltac:(intros; apply reset_ready_insert; [discriminate | assumption])
                  ltac:(intros; apply reset_ready_insert; [discriminate | assumption])
                  ltac:(intros; apply reset_ready_insert; [discriminate | assumption])
                  throttle_cmd steering_cmd dt s IH).
    rewrite Hstep in H. exact H.
  - pose proof (keeps_reset (reset_ready E)) as H.
    specialize (H ltac:(intros; apply reset_ready_insert; [discriminate | assumption])
                  ltac:(intros; apply reset_ready_insert; [discriminate | assumption])
                  ltac:(intros; apply reset_ready_insert; [discriminate | assumption])
                  s IH).
    rewrite Hreset in H. exact H.
Qed.

(** *** [step] once the game is over *)

Lemma step_when_halted (s : state) throttle_cmd steering_cmd dt :
  attrs s !! "running" = Some (VBool false) ->
  step E throttle_cmd steering_cmd dt s = (Ok tt, s).
Proof.
  intros H. unfold step, bind, getattr. rewrite H. reflexivity.
Qed.

(** The ball touching the goal ends the game: [scored] is set, [running]
    is cleared, and [step] returns before it steps a car or the world. *)
Lemma step_on_goal_contact (s : state) throttle_cmd steering_cmd dt
    ballID goalID cars c rest :
  attrs s !! "running" = Some (VBool true) ->
  attrs s !! "_ballID" = Some (VInt ballID) ->
  attrs s !! "_goalID" = Some (VInt goalID) ->
  attrs s !! "_cars" = Some (VDict cars) ->
  getContactPoints E ballID (phys s) = c :: rest ->
  bodyUniqueIdB c = goalID ->
  existsb (fun kv => fst kv =? goalID) cars = false ->
  step E throttle_cmd steering_cmd dt s =
  (Ok tt,
   {| attrs := <["running" := VBool false]> (<["scored" := VBool true]> (attrs s));
      phys := phys s;
      calls := calls s ++ [CallGetContactPoints ballID] |}).
Proof.
  intros Hrun Hball Hgoal Hcars Hcontacts Hc Hnocar.
  unfold step, bind, getattr, as_int, log, engine, modify, ret.
  rewrite Hrun. cbn [truthy attrs phys calls]. rewrite Hball.
  cbn [attrs phys calls]. rewrite Hcontacts.
  cbn [contact_loop]. unfold bind, getattr, lift, setattr, modify, ret.
  cbn [attrs phys calls]. rewrite Hcars. cbn [contains].
  rewrite Hc, Hnocar. cbn [attrs phys calls]. rewrite Hgoal.
  cbn [int_eq]. rewrite Z.eqb_refl. reflexivity.
Qed.

(** *** The claims about the simulator *)

(** C4: what [reset] does instead.  In every state a [Sim] object can be in,
    [reset] raises [AttributeError] on [self._ballInitPos] after clearing the
    flags: [running] stays [False], no pose is restored and the engine is
    not called. *)
Theorem reset_raises_before_restoring (s : state) :
  reachable E s ->
  exists s',
    reset E s = (Raise (AttributeError "_ballInitPos"), s') /\
    attrs s' !! "running" = Some (VBool false) /\
    attrs s' !! "scored" = Some (VBool false) /\
    attrs s' !! "touched_last" = Some VNone /\
    phys s' = phys s /\
    calls s' = calls s.
Proof.
  intros Hr. apply reachable_reset_ready in Hr as [[b Hb] Hpos].
  eexists. split.
  - unfold reset, bind, setattr, modify, getattr. cbn [attrs phys calls].
    rewrite !lookup_insert_ne by discriminate. rewrite Hb.
    cbn [attrs phys calls].
    rewrite !lookup_insert_ne by discriminate. rewrite Hpos. reflexivity.
  - cbn [attrs phys calls]. repeat split.
    + rewrite !lookup_insert_ne by discriminate. apply lookup_insert_eq.
    + rewrite lookup_insert_ne by discriminate. apply lookup_insert_eq.
    + apply lookup_insert_eq.
Qed.

(** C5: once the game is over ([running] is [False], as the goal contact
    leaves it), every later run of [step] calls returns with the whole
    state as it was: attributes, physics world and the list of engine calls,
    so no car is stepped and the simulation does not advance. *)
Theorem halted_until_reset (s : state) (args : list (Q * Q * Q)) :
  attrs s !! "running" = Some (VBool false) ->
  steps E args s = (Ok tt, s).
Proof.
  intros H. induction args as [|[[throttle_cmd steering_cmd] dt] rest IH].
  - reflexivity.
  - cbn [steps]. rewrite (bind_ok _ _ _ _ _ (step_when_halted s _ _ _ H)).
    exact IH.
Qed.

(** [step] never assigns [touched_last]. *)
Lemma step_keeps_touched_last (s : state) throttle_cmd steering_cmd dt :
  attrs (snd (step E throttle_cmd steering_cmd dt s)) !! "touched_last" =
  attrs s !! "touched_last".
Proof.
  pose proof (keeps_step (fun a => a !! "touched_last" = attrs s !! "touched_last")) as H.
  apply H; try reflexivity;
    intros a v Ha; (rewrite lookup_insert_ne by discriminate); exact Ha.
Qed.

(** *** Running a method step by step *)

Lemma bind_setattr {A} name v (k : unit -> M state A) (s : state) :
  bind (setattr E name v) k s =
  k tt {| attrs := <[name := v]> (attrs s); phys := phys s; calls := calls s |}.
Proof. reflexivity. Qed.

Lemma bind_log {A} c (k : unit -> M state A) (s : state) :
  bind (log E c) k s =
  k tt {| attrs := attrs s; phys := phys s; calls := calls s ++ [c] |}.
Proof. reflexivity. Qed.

Lemma bind_engine {A C} (f : world E -> A * world E) (k : A -> M state C)
    (s : state) :
  bind (engine E f) k s =
  k (fst (f (phys s)))
    {| attrs := attrs s; phys := snd (f (phys s)); calls := calls s |}.
Proof. unfold bind, engine. destruct (f (phys s)). reflexivity. Qed.

Lemma bind_engine_ {A} (f : world E -> world E) (k : unit -> M state A)
    (s : state) :
  bind (engine_ E f) k s =
  k tt {| attrs := attrs s; phys := f (phys s); calls := calls s |}.
Proof. reflexivity. Qed.

Lemma bind_getattr {A} name v (k : value -> M state A) (s : state) :
  attrs s !! name = Some v -> bind (getattr E name) k s = k v s.
Proof. intros H. unfold bind, getattr. rewrite H. reflexivity. Qed.

Lemma bind_subscript {A C} (d : gmap string A) key a (k : A -> M state C)
    (s : state) :
  d !! key = Some a -> bind (subscript E d key) k s = k a s.
Proof. intros H. unfold bind, subscript. rewrite H. reflexivity. Qed.

Lemma bind_subscript_missing {A C} (d : gmap string A) key
    (k : A -> M state C) (s : state) :
  d !! key = None ->
  bind (subscript E d key) k s = (Raise (KeyError key), s).
Proof. intros H. unfold bind, subscript. rewrite H. reflexivity. Qed.

Lemma bind_ret {A C} (a : A) (k : A -> M state C) (s : state) :
  bind (ret a) k s = k a s.
Proof. reflexivity. Qed.

(** *** The contact loop *)

Lemma car_touched_seen d goalID contacts seen :
  car_touched E d goalID contacts seen =
  match car_touched E d goalID contacts None with
  | Some id => Some id
  | None => seen
  end.
Proof.
  revert seen. induction contacts as [|c rest IH]; intros seen; simpl.
  - reflexivity.
  - destruct (existsb _ d).
    + rewrite (IH (Some _)). destruct (car_touched E d goalID rest None); reflexivity.
    + destruct (int_eq E _ goalID); [reflexivity | apply IH].
Qed.

Lemma contact_loop_eq contacts : forall (s : state) d goalID,
  attrs s !! "_cars" = Some (VDict d) ->
  attrs s !! "_goalID" = Some goalID ->
  contact_loop E contacts s =
  (Ok (if goal_hit E d goalID contacts then Returned else Completed),
   {| attrs := after_contacts E d goalID contacts (attrs s);
      phys := phys s; calls := calls s |}).
Proof.
  induction contacts as [|c rest IH]; intros s d goalID Hcars Hgoal.
  - destruct s. reflexivity.
  - cbn [contact_loop].
    rewrite (bind_getattr _ _ _ _ Hcars).
    unfold lift at 1. unfold bind at 1. cbn [contains].
    unfold after_contacts. cbn [goal_hit car_touched].
    destruct (existsb _ d) eqn:Ehit.
    + rewrite bind_setattr.
      rewrite (IH _ d goalID);
        [| cbn [attrs]; rewrite lookup_insert_ne by discriminate; assumption
         | cbn [attrs]; rewrite lookup_insert_ne by discriminate; assumption ].
      cbn [attrs phys calls]. unfold after_contacts.
      rewrite (car_touched_seen d goalID rest (Some _)).
      destruct (car_touched E d goalID rest None);
        rewrite ?insert_insert_eq; reflexivity.
    + rewrite (bind_getattr _ _ _ _ Hgoal).
      destruct (int_eq E _ goalID) eqn:Egoal.
      * reflexivity.
      * rewrite (IH _ d goalID Hcars Hgoal). reflexivity.
Qed.

(** *** [step] in closed form *)

Lemma step_cars_eq d control dt : forall (s : state),
  step_cars E d control dt s =
  (Ok (fst (stepped_cars E d control dt (phys s))),
   {| attrs := attrs s;
      phys := snd (stepped_cars E d control dt (phys s));
      calls := calls s ++ map (fun kv => CallCarStep (fst kv) control dt) d |}).
Proof.
  induction d as [|[id c] rest IH]; intros s.
  - destruct s. cbn. rewrite app_nil_r. reflexivity.
  - cbn [step_cars stepped_cars]. rewrite bind_log, bind_engine.
    cbn [attrs phys calls].
    destruct (Car_step E c control dt (phys s)) as [c' w'].
    cbn [fst snd]. unfold bind at 1. rewrite IH. cbn [attrs phys calls].
    destruct (stepped_cars E rest control dt w') as [rest' w''].
    cbn. rewrite <- app_assoc. reflexivity.
Qed.

Lemma after_contacts_other d goalID contacts (a : gmap string value) name :
  name <> "touchedLast" -> name <> "scored" -> name <> "running" ->
  after_contacts E d goalID contacts a !! name = a !! name.
Proof.
  intros H1 H2 H3. unfold after_contacts.
  destruct (goal_hit E d goalID contacts);
    destruct (car_touched E d goalID contacts None);
    rewrite ?lookup_insert_ne by congruence; reflexivity.
Qed.

(** A running simulator: the attributes [step] reads. *)
Lemma step_eq (s : state) throttle_cmd steering_cmd dt running ballID d goalID :
  attrs s !! "running" = Some running -> truthy E running = true ->
  attrs s !! "_ballID" = Some (VInt ballID) ->
  attrs s !! "_cars" = Some (VDict d) ->
  attrs s !! "_goalID" = Some goalID ->
  let contacts := getContactPoints E ballID (phys s) in
  let control := (throttle_cmd, steering_cmd) in
  step E throttle_cmd steering_cmd dt s =
  (Ok tt,
   if goal_hit E d goalID contacts then
     {| attrs := after_contacts E d goalID contacts (attrs s);
        phys := phys s;
        calls := calls s ++ [CallGetContactPoints ballID] |}
   else
     {| attrs := <["_cars" := VDict (fst (stepped_cars E d control dt (phys s)))]>
                   (after_contacts E d goalID contacts (attrs s));
        phys := stepSimulation E (snd (stepped_cars E d control dt (phys s)));
        calls := calls s ++ [CallGetContactPoints ballID]
                   ++ map (fun kv => CallCarStep (fst kv) control dt) d
                   ++ [CallStepSimulation] |}).
Proof.
  intros Hrun Htruthy Hball Hcars Hgoal contacts control.
  unfold step. rewrite (bind_getattr _ _ _ _ Hrun), Htruthy.
  rewrite (bind_getattr _ _ _ _ Hball). cbn [as_int]. rewrite bind_ret.
  rewrite bind_log, bind_engine. cbn [attrs phys calls fst snd].
  unfold bind at 1.
  rewrite (contact_loop_eq _ _ d goalID) by (cbn [attrs]; assumption).
  cbn [attrs phys calls].
  fold contacts.
  destruct (goal_hit E d goalID contacts); [reflexivity|].
  rewrite (bind_getattr "_cars" (VDict d)) by
    (cbn [attrs]; rewrite after_contacts_other by discriminate; exact Hcars).
  unfold bind at 1. unfold bind at 1. rewrite step_cars_eq.
  cbn [attrs phys calls]. unfold setattr, log, engine_, engine, modify, bind.
  cbn [attrs phys calls]. subst control. rewrite <- !app_assoc. reflexivity.
Qed.

(** *** [__init__] step by step *)

Ltac run_engine :=
  rewrite bind_engine; cbn [attrs phys calls];
  match goal with
  | |- context [snd (?f ?w)] => destruct (f w) as [? ?]
  end;
  cbn [fst snd].

Ltac run_init :=
  repeat first
    [ run_engine | rewrite bind_engine_ | rewrite bind_setattr
    | rewrite bind_ret
    | erewrite bind_subscript by eassumption
    | erewrite bind_subscript_missing by eassumption
    | progress cbn [attrs phys calls fst snd as_int dict_set] ].

Ltac missing_key side :=
  run_init;
  match goal with Post := _ |- _ => subst Post end;
  cbv beta; right; eexists _, _; split; [reflexivity|];
  side; split;
  [ unfold urdf_keys, field_keys;
    repeat first [apply list_elem_of_here | apply list_elem_of_further]
  | assumption ].

Lemma init_cases urdf_paths field_setup render_enabled (w : world E) :
  (exists client plane ballID goalID carID c w',
     __init__ E urdf_paths field_setup render_enabled (fresh E w) =
     (Ok tt, {| attrs := built E client plane ballID goalID carID c;
                phys := w'; calls := [] |})
     /\ (forall key, key ∈ urdf_keys -> is_Some (urdf_paths !! key))
     /\ (forall key, key ∈ field_keys -> is_Some (field_setup !! key))) \/
  (exists key s,
     __init__ E urdf_paths field_setup render_enabled (fresh E w) =
     (Raise (KeyError key), s)
     /\ ((key ∈ urdf_keys /\ urdf_paths !! key = None) \/
         (key ∈ field_keys /\ field_setup !! key = None))).
Proof.
  unfold __init__.
  match goal with
  | |- context [?X = (Ok tt, _)] => pattern X
  end.
  match goal with |- ?P _ => set (Post := P) end.
  destruct (urdf_paths !! "ball") eqn:K0; [| missing_key ltac:(left)].
  destruct (field_setup !! "ball") eqn:K1; [| missing_key ltac:(right)].
  destruct (urdf_paths !! "goal") eqn:K2; [| missing_key ltac:(left)].
  destruct (field_setup !! "goal") eqn:K3; [| missing_key ltac:(right)].
  destruct (urdf_paths !! "sidewall") eqn:K4; [| missing_key ltac:(left)].
  destruct (field_setup !! "leftsidewall") eqn:K5; [| missing_key ltac:(right)].
  destruct (field_setup !! "rightsidewall") eqn:K6; [| missing_key ltac:(right)].
  destruct (urdf_paths !! "backwall") eqn:K7; [| missing_key ltac:(left)].
  destruct (field_setup !! "frontbackwall") eqn:K8; [| missing_key ltac:(right)].
  destruct (field_setup !! "backbackwall") eqn:K9; [| missing_key ltac:(right)].
  destruct (urdf_paths !! "car") eqn:K10; [| missing_key ltac:(left)].
  destruct (field_setup !! "car") eqn:K11; [| missing_key ltac:(right)].
  run_init.
  rewrite (bind_getattr "_carID" (VInt _)) by (cbn [attrs]; apply lookup_insert_eq).
  run_init.
  rewrite (bind_getattr "_cars" (VDict [])) by
    (cbn [attrs]; rewrite lookup_insert_ne by discriminate; apply lookup_insert_eq).
  rewrite (bind_getattr "_carID" (VInt _)) by (cbn [attrs]; apply lookup_insert_eq).
  run_init. unfold engine_, engine. cbn [attrs phys calls].
  subst Post. cbv beta. left. eexists _, _, _, _, _, _, _.
  split; [reflexivity|]. split.
  - intros key Hkey. unfold urdf_keys in Hkey.
    repeat (apply elem_of_cons in Hkey as [-> | Hkey]; [eexists; eassumption|]).
    apply elem_of_nil in Hkey. destruct Hkey.
  - intros key Hkey. unfold field_keys in Hkey.
    repeat (apply elem_of_cons in Hkey as [-> | Hkey]; [eexists; eassumption|]).
    apply elem_of_nil in Hkey. destruct Hkey.
Qed.

(** *** The shape of the attributes is kept *)

Ltac lookup_inserts :=
  repeat first
    [ rewrite lookup_insert_eq
    | rewrite lookup_insert_ne by discriminate
    | rewrite lookup_empty ].

Ltac split_shaped :=
  unfold shaped; split; [|split; [|split; [|split; [|split]]]].

Lemma built_shaped client plane ballID goalID carID c :
  shaped E (built E client plane ballID goalID carID c).
Proof.
  split_shaped; unfold built.
  - exists ballID. lookup_inserts. reflexivity.
  - exists goalID. lookup_inserts. reflexivity.
  - exists carID, c. split; [|split; [|left]]; lookup_inserts; reflexivity.
  - exists true, false. split; [|split]; lookup_inserts; try reflexivity.
    discriminate.
  - lookup_inserts. reflexivity.
  - lookup_inserts. reflexivity.
Qed.

Lemma after_contacts_touchedLast d goalID contacts (a : gmap string value) :
  after_contacts E d goalID contacts a !! "touchedLast" =
  match car_touched E d goalID contacts None with
  | Some id => Some (VInt id)
  | None => a !! "touchedLast"
  end.
Proof.
  unfold after_contacts.
  destruct (goal_hit E d goalID contacts);
    destruct (car_touched E d goalID contacts None);
    lookup_inserts; reflexivity.
Qed.

Lemma after_contacts_running d goalID contacts (a : gmap string value) :
  after_contacts E d goalID contacts a !! "running" =
  if goal_hit E d goalID contacts then Some (VBool false) else a !! "running".
Proof.
  unfold after_contacts.
  destruct (goal_hit E d goalID contacts);
    destruct (car_touched E d goalID contacts None);
    lookup_inserts; reflexivity.
Qed.

Lemma after_contacts_scored d goalID contacts (a : gmap string value) :
  after_contacts E d goalID contacts a !! "scored" =
  if goal_hit E d goalID contacts then Some (VBool true) else a !! "scored".
Proof.
  unfold after_contacts.
  destruct (goal_hit E d goalID contacts);
    destruct (car_touched E d goalID contacts None);
    lookup_inserts; reflexivity.
Qed.

(** With one car, the only id the loop can record is that car's. *)
Lemma car_touched_single carID c goalID contacts seen id :
  car_touched E [(carID, c)] goalID contacts seen = Some id ->
  id = carID \/ seen = Some id.
Proof.
  revert seen. induction contacts as [|k rest IH]; intros seen H; simpl in H.
  - right. exact H.
  - destruct (carID =? bodyUniqueIdB k) eqn:Ek; simpl in H.
    + apply IH in H as [H | H]; [left; exact H|].
      injection H as <-. left. symmetry. apply Z.eqb_eq, Ek.
    + destruct (int_eq E _ goalID); [right; exact H | apply IH, H].
Qed.

Lemma stepped_cars_single carID c control dt w :
  exists c', fst (stepped_cars E [(carID, c)] control dt w) = [(carID, c')].
Proof.
  cbn. destruct (Car_step E c control dt w) as [c' w']. exists c'. reflexivity.
Qed.

Lemma step_shaped (s : state) throttle_cmd steering_cmd dt :
  shaped E (attrs s) ->
  shaped E (attrs (snd (step E throttle_cmd steering_cmd dt s))).
Proof.
  intros Hs.
  pose proof Hs as ((ballID & Hball) & (goalID & Hgoal) &
                    (carID & c & Hcar & Hcars & Htl) &
                    (running & scored & Hrun & Hsc & Himp) & Htouched & Hpos).
  destruct running.
  2:{ rewrite (step_when_halted s _ _ _ Hrun). exact Hs. }
  rewrite (step_eq s throttle_cmd steering_cmd dt _ ballID [(carID, c)]
             (VInt goalID) Hrun eq_refl Hball Hcars Hgoal).
  cbn [snd].
  set (contacts := getContactPoints E ballID (phys s)).
  assert (HtL : after_contacts E [(carID, c)] (VInt goalID) contacts (attrs s)
                  !! "touchedLast" = None \/
                after_contacts E [(carID, c)] (VInt goalID) contacts (attrs s)
                  !! "touchedLast" = Some (VInt carID)).
  { rewrite after_contacts_touchedLast.
    destruct (car_touched E _ _ contacts None) as [id|] eqn:Et; [|exact Htl].
    apply car_touched_single in Et as [-> | Et]; [right; reflexivity | discriminate]. }
  destruct (goal_hit E [(carID, c)] (VInt goalID) contacts) eqn:Ehit;
    cbn [attrs]; unfold shaped.
  - rewrite (after_contacts_other _ _ _ _ "_ballID") by discriminate.
    rewrite (after_contacts_other _ _ _ _ "_goalID") by discriminate.
    rewrite (after_contacts_other _ _ _ _ "_carID") by discriminate.
    rewrite (after_contacts_other _ _ _ _ "_cars") by discriminate.
    rewrite (after_contacts_other _ _ _ _ "touched_last") by discriminate.
    rewrite (after_contacts_other _ _ _ _ "_ballInitPos") by discriminate.
    rewrite after_contacts_running, after_contacts_scored, Ehit.
    split; [|split; [|split; [|split; [|split]]]].
    + exists ballID. exact Hball.
    + exists goalID. exact Hgoal.
    + exists carID, c. split; [|split]; assumption.
    + exists false, true. split; [|split]; reflexivity.
    + exact Htouched.
    + exact Hpos.
  - destruct (stepped_cars_single carID c (throttle_cmd, steering_cmd) dt (phys s))
      as [c' ->].
    lookup_inserts.
    rewrite (after_contacts_other _ _ _ _ "_ballID") by discriminate.
    rewrite (after_contacts_other _ _ _ _ "_goalID") by discriminate.
    rewrite (after_contacts_other _ _ _ _ "_carID") by discriminate.
    rewrite (after_contacts_other _ _ _ _ "touched_last") by discriminate.
    rewrite (after_contacts_other _ _ _ _ "_ballInitPos") by discriminate.
    rewrite after_contacts_running, after_contacts_scored, Ehit.
    split; [|split; [|split; [|split; [|split]]]].
    + exists ballID. exact Hball.
    + exists goalID. exact Hgoal.
    + exists carID, c'. split; [|split]; [assumption | reflexivity | assumption].
    + exists true, scored. split; [|split]; assumption.
    + exact Htouched.
    + exact Hpos.
Qed.

Lemma reset_eq (s : state) ballID :
  attrs s !! "_ballID" = Some ballID ->
  attrs s !! "_ballInitPos" = None ->
  reset E s =
  (Raise (AttributeError "_ballInitPos"),
   {| attrs := <["touched_last" := VNone]>
                 (<["scored" := VBool false]>
                    (<["running" := VBool false]> (attrs s)));
      phys := phys s; calls := calls s |}).
Proof.
  intros Hball Hpos. unfold reset. rewrite !bind_setattr.
  rewrite (bind_getattr "_ballID" ballID) by
    (cbn [attrs]; lookup_inserts; exact Hball).
  unfold bind, getattr. cbn [attrs]. lookup_inserts. rewrite Hpos. reflexivity.
Qed.

Lemma reset_shaped (s : state) :
  shaped E (attrs s) -> shaped E (attrs (snd (reset E s))).
Proof.
  intros ((ballID & Hball) & (goalID & Hgoal) &
          (carID & c & Hcar & Hcars & Htl) &
          (running & scored & Hrun & Hsc & Himp) & Htouched & Hpos).
  rewrite (reset_eq s _ Hball Hpos). cbn [snd attrs].
  split_shaped.
  - exists ballID. lookup_inserts. exact Hball.
  - exists goalID. lookup_inserts. exact Hgoal.
  - exists carID, c. lookup_inserts. split; [|split]; assumption.
  - exists false, false. split; [|split]; lookup_inserts; reflexivity.
  - lookup_inserts. reflexivity.
  - lookup_inserts. exact Hpos.
Qed.

Lemma reachable_shaped (s : state) : reachable E s -> shaped E (attrs s).
Proof.
  induction 1 as [urdf_paths field_setup render_enabled w s Hinit
                 | throttle_cmd steering_cmd dt s r s' Hs IH Hstep
                 | s r s' Hs IH Hreset].
  - destruct (init_cases urdf_paths field_setup render_enabled w)
      as [(client & plane & ballID & goalID & carID & c & w' & Hrun & _)
         | (key & s1 & Hrun & _)];
      rewrite Hrun in Hinit; [|discriminate].
    injection Hinit as <-. apply built_shaped.
  - pose proof (step_shaped s throttle_cmd steering_cmd dt IH) as H.
    rewrite Hstep in H. exact H.
  - pose proof (reset_shaped s IH) as H. rewrite Hreset in H. exact H.
Qed.

(** *** Properties of [__init__], [step], [reset] and the getters *)

(** X1: [__init__] returns only if [urdf_paths] holds the five keys and
    [field_setup] the seven keys it reads: with one of them missing it
    does not return, whatever the engine does. *)
Theorem init_needs_every_key urdf_paths field_setup render_enabled (w : world E) :
  fst (__init__ E urdf_paths field_setup render_enabled (fresh E w)) = Ok tt ->
  (forall key, key ∈ urdf_keys -> is_Some (urdf_paths !! key)) /\
  (forall key, key ∈ field_keys -> is_Some (field_setup !! key)).
Proof.
  destruct (init_cases urdf_paths field_setup render_enabled w)
    as [(client & plane & ballID & goalID & carID & c & w' & -> & Hu & Hf)
       | (key & s1 & -> & Hmiss)]; cbn [fst].
  - intros _. split; assumption.
  - discriminate.
Qed.

Lemma built_dom client plane ballID goalID carID c :
  dom (built E client plane ballID goalID carID c) =
  list_to_set ["_client"; "_planeID"; "_ballID"; "_goalID"; "_cars";
               "_carID"; "touched_last"; "scored"; "running"].
Proof. unfold built. rewrite !dom_insert_L, dom_empty_L. set_solver. Qed.

(** X2: when [__init__] returns, the object has the nine attributes it
    assigns and no other, the game is running and not scored,
    [touched_last] is [None], the one car is stored under the id the engine
    gave it, and nothing is recorded yet in the list of calls. *)
Theorem init_builds urdf_paths field_setup render_enabled (w : world E) (s : state) :
  __init__ E urdf_paths field_setup render_enabled (fresh E w) = (Ok tt, s) ->
  dom (attrs s) =
    list_to_set ["_client"; "_planeID"; "_ballID"; "_goalID"; "_cars";
                 "_carID"; "touched_last"; "scored"; "running"] /\
  attrs s !! "running" = Some (VBool true) /\
  attrs s !! "scored" = Some (VBool false) /\
  attrs s !! "touched_last" = Some VNone /\
  (exists carID c,
     attrs s !! "_carID" = Some (VInt carID) /\
     attrs s !! "_cars" = Some (VDict [(carID, c)])) /\
  calls s = [].
Proof.
  intros Hinit.
  destruct (init_cases urdf_paths field_setup render_enabled w)
    as [(client & plane & ballID & goalID & carID & c & w' & Hrun & _)
       | (key & s1 & Hrun & _)];
    rewrite Hrun in Hinit; [|discriminate].
  injection Hinit as <-. cbn [attrs calls].
  split; [apply built_dom|].
  unfold built.
  split; [lookup_inserts; reflexivity|].
  split; [lookup_inserts; reflexivity|].
  split; [lookup_inserts; reflexivity|].
  split; [|reflexivity].
  exists carID, c. split; lookup_inserts; reflexivity.
Qed.

(** X3: in every state a [Sim] object can be in, whatever [step] and
    [reset] calls it went through, the attributes keep their shape:
    [_ballID] and [_goalID] are ids, [_cars] holds exactly the one car
    stored under [_carID], [running] and [scored] are booleans and [scored]
    is never set while [running] is, [touched_last] is [None],
    [touchedLast] is absent or the id of the car, and [_ballInitPos] is
    absent. *)
Theorem sim_keeps_its_shape (s : state) : reachable E s -> shaped E (attrs s).
Proof. apply reachable_shaped. Qed.

Lemma goal_hit_without_goal d goalID contacts :
  (forall c, In c contacts -> bodyUniqueIdB c <> goalID) ->
  goal_hit E d (VInt goalID) contacts = false.
Proof.
  induction contacts as [|c rest IH]; intros H; simpl.
  - reflexivity.
  - assert (Hc : (bodyUniqueIdB c =? goalID) = false).
    { apply Z.eqb_neq, H. left. reflexivity. }
    rewrite Hc. rewrite IH by (intros c' Hc'; apply H; right; exact Hc').
    destruct (existsb _ d); reflexivity.
Qed.

Lemma goal_hit_with_goal d goalID contacts c :
  In c contacts -> bodyUniqueIdB c = goalID ->
  existsb (fun kv => fst kv =? goalID) d = false ->
  goal_hit E d (VInt goalID) contacts = true.
Proof.
  intros Hin Hc Hnot. induction contacts as [|c0 rest IH]; [destruct Hin|].
  simpl. destruct (existsb (fun kv => fst kv =? bodyUniqueIdB c0) d) eqn:Ecar.
  - destruct Hin as [-> | Hin]; [|apply IH, Hin].
    rewrite Hc in Ecar. congruence.
  - destruct (bodyUniqueIdB c0 =? goalID) eqn:Eg; [reflexivity|].
    destruct Hin as [-> | Hin]; [|apply IH, Hin].
    rewrite Hc, Z.eqb_refl in Eg. discriminate.
Qed.

Lemma stepped_cars_keys d control dt w :
  map fst (fst (stepped_cars E d control dt w)) = map fst d.
Proof.
  revert w. induction d as [|[id c] rest IH]; intros w; cbn.
  - reflexivity.
  - destruct (Car_step E c control dt w) as [c' w'].
    specialize (IH w'). destruct (stepped_cars E rest control dt w').
    cbn in *. rewrite IH. reflexivity.
Qed.

(** X4: while the game runs and no contact of the ball is with the goal,
    [step] asks for the contacts, steps every car once, in the order of the
    dictionary and with the same control and [dt], then advances the
    simulation once; the cars keep their ids and the flags stay as they
    are. *)
Theorem step_steps_every_car_once (s : state) throttle_cmd steering_cmd dt
    ballID d goalID :
  attrs s !! "running" = Some (VBool true) ->
  attrs s !! "_ballID" = Some (VInt ballID) ->
  attrs s !! "_cars" = Some (VDict d) ->
  attrs s !! "_goalID" = Some (VInt goalID) ->
  (forall c, In c (getContactPoints E ballID (phys s)) ->
             bodyUniqueIdB c <> goalID) ->
  let control := (throttle_cmd, steering_cmd) in
  exists s',
    step E throttle_cmd steering_cmd dt s = (Ok tt, s') /\
    calls s' = calls s ++ [CallGetContactPoints ballID]
                 ++ map (fun kv => CallCarStep (fst kv) control dt) d
                 ++ [CallStepSimulation] /\
    phys s' = stepSimulation E (snd (stepped_cars E d control dt (phys s))) /\
    attrs s' !! "_cars" = Some (VDict (fst (stepped_cars E d control dt (phys s)))) /\
    map fst (fst (stepped_cars E d control dt (phys s))) = map fst d /\
    attrs s' !! "running" = Some (VBool true) /\
    attrs s' !! "scored" = attrs s !! "scored".
Proof.
  intros Hrun Hball Hcars Hgoal Hnone control.
  rewrite (step_eq s throttle_cmd steering_cmd dt _ ballID d (VInt goalID)
             Hrun eq_refl Hball Hcars Hgoal).
  rewrite (goal_hit_without_goal d goalID _ Hnone).
  eexists. split; [reflexivity|]. cbn [attrs phys calls].
  split; [reflexivity|]. split; [reflexivity|].
  split; [apply lookup_insert_eq|].
  split; [apply stepped_cars_keys|].
  rewrite !lookup_insert_ne by discriminate.
  rewrite after_contacts_running, after_contacts_scored.
  rewrite (goal_hit_without_goal d goalID _ Hnone). split; [exact Hrun | reflexivity].
Qed.

(** X5: while the game runs, a contact of the ball with the goal, wherever
    it is among the contacts, ends the game: [scored] is set, [running] is
    cleared, and [step] returns having stepped no car and not advanced the
    simulation.  (The goal must not be one of the cars.) *)
Theorem step_goal_contact_anywhere (s : state) throttle_cmd steering_cmd dt
    ballID d goalID c :
  attrs s !! "running" = Some (VBool true) ->
  attrs s !! "_ballID" = Some (VInt ballID) ->
  attrs s !! "_cars" = Some (VDict d) ->
  attrs s !! "_goalID" = Some (VInt goalID) ->
  In c (getContactPoints E ballID (phys s)) ->
  bodyUniqueIdB c = goalID ->
  existsb (fun kv => fst kv =? goalID) d = false ->
  exists s',
    step E throttle_cmd steering_cmd dt s = (Ok tt, s') /\
    attrs s' !! "running" = Some (VBool false) /\
    attrs s' !! "scored" = Some (VBool true) /\
    attrs s' !! "_cars" = Some (VDict d) /\
    phys s' = phys s /\
    calls s' = calls s ++ [CallGetContactPoints ballID].
Proof.
  intros Hrun Hball Hcars Hgoal Hin Hc Hnot.
  rewrite (step_eq s throttle_cmd steering_cmd dt _ ballID d (VInt goalID)
             Hrun eq_refl Hball Hcars Hgoal).
  rewrite (goal_hit_with_goal d goalID _ c Hin Hc Hnot).
  eexists. split; [reflexivity|]. cbn [attrs phys calls].
  rewrite after_contacts_running, after_contacts_scored.
  rewrite (after_contacts_other _ _ _ _ "_cars") by discriminate.
  rewrite (goal_hit_with_goal d goalID _ c Hin Hc Hnot).
  repeat split. exact Hcars.
Qed.

(** X6: what a [step] of a running game leaves in [touchedLast]: the id
    of the last contact with a car that the loop saw before it ended, and
    the old value if it saw none. *)
Theorem step_records_last_car_contact (s : state) throttle_cmd steering_cmd dt
    ballID d goalID :
  attrs s !! "running" = Some (VBool true) ->
  attrs s !! "_ballID" = Some (VInt ballID) ->
  attrs s !! "_cars" = Some (VDict d) ->
  attrs s !! "_goalID" = Some goalID ->
  attrs (snd (step E throttle_cmd steering_cmd dt s)) !! "touchedLast" =
  match car_touched E d goalID (getContactPoints E ballID (phys s)) None with
  | Some id => Some (VInt id)
  | None => attrs s !! "touchedLast"
  end.
Proof.
  intros Hrun Hball Hcars Hgoal.
  rewrite (step_eq s throttle_cmd steering_cmd dt _ ballID d goalID
             Hrun eq_refl Hball Hcars Hgoal).
  cbn [snd]. destruct (goal_hit E d goalID _); cbn [attrs];
    rewrite ?lookup_insert_ne by discriminate;
    apply after_contacts_touchedLast.
Qed.

(** X7: once [reset] has been called, the simulator is halted for good:
    whatever [step] and [reset] calls follow, [running] stays [False], the
    physics world is the one [reset] found and the engine is never called
    again. *)
Theorem reset_halts_for_good (s : state) (ms : list method) :
  reachable E s ->
  let s' := drive E ms (snd (reset E s)) in
  attrs s' !! "running" = Some (VBool false) /\
  phys s' = phys s /\
  calls s' = calls s.
Proof.
  intros Hr. cbv zeta.
  assert (Hinv : forall ms (s1 : state),
            shaped E (attrs s1) ->
            attrs s1 !! "running" = Some (VBool false) ->
            attrs (drive E ms s1) !! "running" = Some (VBool false) /\
            phys (drive E ms s1) = phys s1 /\
            calls (drive E ms s1) = calls s1).
  { clear. induction ms as [|m rest IH]; intros s1 Hs Hrun; cbn [drive].
    - repeat split. exact Hrun.
    - destruct m as [throttle_cmd steering_cmd dt|]; cbn [call_method].
      + rewrite (step_when_halted s1 _ _ _ Hrun). cbn [snd].
        apply IH; assumption.
      + pose proof Hs as ((ballID & Hball) & _ & _ & _ & _ & Hpos).
        pose proof (reset_shaped s1 Hs) as Hs'.
        rewrite (reset_eq s1 _ Hball Hpos) in *. cbn [snd] in *.
        destruct (IH _ Hs') as (H1 & H2 & H3).
        { cbn [attrs]. lookup_inserts. reflexivity. }
        repeat split; assumption. }
  pose proof (reachable_shaped s Hr) as Hs.
  pose proof Hs as ((ballID & Hball) & _ & _ & _ & _ & Hpos).
  pose proof (reset_shaped s Hs) as Hs'.
  rewrite (reset_eq s _ Hball Hpos) in *. cbn [snd] in *.
  destruct (Hinv ms _ Hs') as (H1 & H2 & H3).
  { cbn [attrs]. lookup_inserts. reflexivity. }
  repeat split; assumption.
Qed.

Section Getters.

Variable pose : Type.
Variable velocity : Type.
Variable Car_getPose : car E -> world E -> pose.
Variable Car_getVelocity : car E -> world E -> velocity.
Variable getBasePositionAndOrientation : Z -> world E -> pose.
Variable getBaseVelocity : Z -> world E -> velocity.

(** X8: on a [Sim] object the four getters never raise and change
    nothing: the car getters read the one car of [_cars], the ball getters
    query the engine with the id of the ball. *)
Theorem getters_read_the_car_and_the_ball (s : state) :
  reachable E s ->
  exists carID c ballID,
    attrs s !! "_cars" = Some (VDict [(carID, c)]) /\
    attrs s !! "_ballID" = Some (VInt ballID) /\
    getCarPose E Car_getPose s = (Ok (Car_getPose c (phys s)), s) /\
    getCarVelocity E Car_getVelocity s = (Ok (Car_getVelocity c (phys s)), s) /\
    getBallPose E getBasePositionAndOrientation s =
      (Ok (getBasePositionAndOrientation ballID (phys s)), s) /\
    getBallVelocity E getBaseVelocity s =
      (Ok (getBaseVelocity ballID (phys s)), s).
Proof.
  intros Hr.
  destruct (reachable_shaped s Hr)
    as ((ballID & Hball) & _ & (carID & c & _ & Hcars & _) & _).
  exists carID, c, ballID.
  split; [exact Hcars|]. split; [exact Hball|].
  unfold getCarPose, getCarVelocity, getBallPose, getBallVelocity, first_car.
  rewrite !(bind_getattr "_ballID" (VInt ballID)) by exact Hball.
  unfold bind, getattr, engine. rewrite Hcars.
  destruct s. cbn. repeat split.
Qed.

End Getters.

End WithEngine.

(** C4 on the small engine: a freshly built simulator. *)
Lemma reset_raises_before_restoring_witness :
  reachable ToyEngine.engine (ToyEngine.constructed []) /\
  exists s',
    reset ToyEngine.engine (ToyEngine.constructed []) =
      (Raise (AttributeError "_ballInitPos"), s') /\
    attrs s' !! "running" = Some (VBool false) /\
    attrs s' !! "scored" = Some (VBool false) /\
    attrs s' !! "touched_last" = Some VNone /\
    phys s' = phys (ToyEngine.constructed []) /\
    calls s' = calls (ToyEngine.constructed []).
Proof.
  assert (Hr : reachable ToyEngine.engine (ToyEngine.constructed [])).
  { eapply (reach_init ToyEngine.engine ToyEngine.urdf_paths
              ToyEngine.field_setup false (ToyEngine.empty_world [])).
    vm_compute. reflexivity. }
  split; [exact Hr|].
  exact (reset_raises_before_restoring ToyEngine.engine _ Hr).
Defined.

(** C5 on the small engine: the state left by a [step] that saw the ball
    touch the goal, then three more [step] calls. *)
Lemma halted_until_reset_witness :
  attrs ToyEngine.after_goal !! "running" = Some (VBool false) /\
  attrs ToyEngine.after_goal !! "scored" = Some (VBool true) /\
  steps ToyEngine.engine [(1, 0, 1 # 10); (1, 1, 1 # 10); (0, 0, 1 # 5)]%Q
    ToyEngine.after_goal = (Ok tt, ToyEngine.after_goal).
Proof.
  split; [vm_compute; reflexivity|].
  split; [vm_compute; reflexivity|].
  apply (halted_until_reset ToyEngine.engine ToyEngine.after_goal).
  vm_compute. reflexivity.
Defined.

(** C7: what [step] does instead.  [step] never assigns [touched_last]; when
    the ball touches the car (body 7 of the small engine) the id goes to a
    new attribute [touchedLast] and [touched_last] is still [None]. *)
Theorem car_contact_misses_touched_last :
  (forall (E : Engine) (s : state E) throttle_cmd steering_cmd dt,
     attrs (snd (step E throttle_cmd steering_cmd dt s)) !! "touched_last" =
     attrs s !! "touched_last") /\
  (let s := ToyEngine.constructed [ToyEngine.ball_touches 7] in
   let s' := snd (step ToyEngine.engine 1 0 (1 # 10) s) in
   attrs s !! "running" = Some (VBool true) /\
   attrs s !! "_carID" = Some (VInt 7) /\
   attrs s !! "touched_last" = Some VNone /\
   attrs s' !! "touched_last" = Some VNone /\
   attrs s' !! "touchedLast" = Some (VInt 7)).
Proof.
  split; [exact step_keeps_touched_last|].
  repeat split; vm_compute; reflexivity.
Qed.

(** X1 on the small engine: [__init__] returns, and the key [goal] is in
    [urdf_paths]. *)
Lemma init_needs_every_key_witness :
  fst (__init__ ToyEngine.engine ToyEngine.urdf_paths ToyEngine.field_setup
         false (fresh ToyEngine.engine (ToyEngine.empty_world []))) = Ok tt /\
  is_Some (ToyEngine.urdf_paths !! "goal") /\
  is_Some (ToyEngine.field_setup !! "backbackwall").
Proof.
  assert (Hinit : fst (__init__ ToyEngine.engine ToyEngine.urdf_paths
                         ToyEngine.field_setup false
                         (fresh ToyEngine.engine (ToyEngine.empty_world [])))
                  = Ok tt).
  { vm_compute. reflexivity. }
  split; [exact Hinit|].
  destruct (init_needs_every_key ToyEngine.engine ToyEngine.urdf_paths
              ToyEngine.field_setup false (ToyEngine.empty_world []) Hinit)
    as [Hu Hf].
  split; [apply Hu | apply Hf]; unfold urdf_keys, field_keys;
    rewrite !elem_of_cons; auto 10.
Defined.

(** X2 on the small engine. *)
Lemma init_builds_witness :
  let s := ToyEngine.constructed [] in
  __init__ ToyEngine.engine ToyEngine.urdf_paths ToyEngine.field_setup false
    (fresh ToyEngine.engine (ToyEngine.empty_world [])) = (Ok tt, s) /\
  dom (attrs s) =
    list_to_set ["_client"; "_planeID"; "_ballID"; "_goalID"; "_cars";
                 "_carID"; "touched_last"; "scored"; "running"] /\
  attrs s !! "running" = Some (VBool true) /\
  attrs s !! "scored" = Some (VBool false) /\
  attrs s !! "touched_last" = Some VNone /\
  (exists carID c,
     attrs s !! "_carID" = Some (VInt carID) /\
     attrs s !! "_cars" = Some (VDict [(carID, c)])) /\
  calls s = [].
Proof.
  cbv zeta. split; [vm_compute; reflexivity|].
  apply (init_builds ToyEngine.engine ToyEngine.urdf_paths
           ToyEngine.field_setup false (ToyEngine.empty_world [])).
  vm_compute. reflexivity.
Defined.

(** X3 on the small engine: the simulator after a [step] with the ball on
    the car and a [reset]. *)
Lemma sim_keeps_its_shape_witness :
  let s := snd (reset ToyEngine.engine
                  (snd (step ToyEngine.engine 1 0 (1 # 10)
                          ToyEngine.touching_car))) in
  reachable ToyEngine.engine s /\ shaped ToyEngine.engine (attrs s).
Proof.
  cbv zeta.
  assert (H0 : reachable ToyEngine.engine ToyEngine.touching_car).
  { apply (reach_init ToyEngine.engine ToyEngine.urdf_paths
             ToyEngine.field_setup false
             (ToyEngine.empty_world [ToyEngine.ball_touches 7])).
    vm_compute. reflexivity. }
  pose proof (reach_step ToyEngine.engine 1 0 (1 # 10) _ _ _ H0
                (surjective_pairing _)) as H1.
  pose proof (reach_reset ToyEngine.engine _ _ _ H1 (surjective_pairing _))
    as H2.
  split; [exact H2|].
  exact (sim_keeps_its_shape ToyEngine.engine _ H2).
Defined.

(** X4 on the small engine: the ball touches the car, not the goal. *)
Lemma step_steps_every_car_once_witness :
  let s := ToyEngine.touching_car in
  let c := {| ToyEngine.body := 7; ToyEngine.history := [] |} in
  attrs s !! "running" = Some (VBool true) /\
  attrs s !! "_ballID" = Some (VInt 1) /\
  attrs s !! "_cars" = Some (VDict [(7, c)]) /\
  attrs s !! "_goalID" = Some (VInt 2) /\
  (forall k, In k (getContactPoints ToyEngine.engine 1 (phys s)) ->
             bodyUniqueIdB k <> 2) /\
  exists s',
    step ToyEngine.engine 1 0 (1 # 10) s = (Ok tt, s') /\
    calls s' = calls s ++ [CallGetContactPoints 1]
                 ++ [CallCarStep 7 (1, 0)%Q (1 # 10)]
                 ++ [CallStepSimulation].
Proof.
  cbv zeta.
  assert (Hnone : forall k,
            In k (getContactPoints ToyEngine.engine 1
                    (phys ToyEngine.touching_car)) ->
            bodyUniqueIdB k <> 2).
  { intros k Hk. vm_compute in Hk. destruct Hk as [<- | []]. discriminate. }
  split; [vm_compute; reflexivity|]. split; [vm_compute; reflexivity|].
  split; [vm_compute; reflexivity|]. split; [vm_compute; reflexivity|].
  split; [exact Hnone|].
  destruct (step_steps_every_car_once ToyEngine.engine ToyEngine.touching_car
              1 0 (1 # 10) 1
              [(7, {| ToyEngine.body := 7; ToyEngine.history := [] |})] 2)
    as (s' & Hstep & Hcalls & _);
    [vm_compute; reflexivity | vm_compute; reflexivity
    | vm_compute; reflexivity | vm_compute; reflexivity | exact Hnone |].
  exists s'. split; [exact Hstep | exact Hcalls].
Defined.

(** X5 on the small engine: the ball touches the car, then the goal. *)
Lemma step_goal_contact_anywhere_witness :
  let s := ToyEngine.touching_car_and_goal in
  let c := {| ToyEngine.body := 7; ToyEngine.history := [] |} in
  attrs s !! "running" = Some (VBool true) /\
  In (ToyEngine.ball_touches 2)
     (getContactPoints ToyEngine.engine 1 (phys s)) /\
  exists s',
    step ToyEngine.engine 1 0 (1 # 10) s = (Ok tt, s') /\
    attrs s' !! "running" = Some (VBool false) /\
    attrs s' !! "scored" = Some (VBool true) /\
    attrs s' !! "_cars" = Some (VDict [(7, c)]) /\
    phys s' = phys s /\
    calls s' = calls s ++ [CallGetContactPoints 1].
Proof.
  cbv zeta.
  split; [vm_compute; reflexivity|].
  split; [vm_compute; right; left; reflexivity|].
  apply (step_goal_contact_anywhere ToyEngine.engine
           ToyEngine.touching_car_and_goal 1 0 (1 # 10) 1
           [(7, {| ToyEngine.body := 7; ToyEngine.history := [] |})] 2
           (ToyEngine.ball_touches 2));
    vm_compute; first [reflexivity | right; left; reflexivity].
Defined.

(** X6 on the small engine: the ball touches the car (body 7). *)
Lemma step_records_last_car_contact_witness :
  let s := ToyEngine.touching_car in
  attrs s !! "running" = Some (VBool true) /\
  attrs s !! "touchedLast" = None /\
  attrs (snd (step ToyEngine.engine 1 0 (1 # 10) s)) !! "touchedLast" =
    Some (VInt 7).
Proof.
  cbv zeta.
  split; [vm_compute; reflexivity|]. split; [vm_compute; reflexivity|].
  apply (step_records_last_car_contact ToyEngine.engine ToyEngine.touching_car
           1 0 (1 # 10) 1
           [(7, {| ToyEngine.body := 7; ToyEngine.history := [] |})]
           (VInt 2));
    vm_compute; reflexivity.
Defined.

(** X7 on the small engine: [reset], then [step], [reset] and [step]
    again. *)
Lemma reset_halts_for_good_witness :
  let s := ToyEngine.constructed [] in
  let s' := drive ToyEngine.engine [Step 1 0 (1 # 10); Reset; Step 1 1 (1 # 10)]
              (snd (reset ToyEngine.engine s)) in
  reachable ToyEngine.engine s /\
  attrs s' !! "running" = Some (VBool false) /\
  phys s' = phys s /\
  calls s' = calls s.
Proof.
  cbv zeta.
  assert (Hr : reachable ToyEngine.engine (ToyEngine.constructed [])).
  { apply (reach_init ToyEngine.engine ToyEngine.urdf_paths
             ToyEngine.field_setup false (ToyEngine.empty_world [])).
    vm_compute. reflexivity. }
  split; [exact Hr|].
  exact (reset_halts_for_good ToyEngine.engine _
           [Step 1 0 (1 # 10); Reset; Step 1 1 (1 # 10)] Hr).
Defined.

(** X8 on the small engine, after one [step]: the pose of the car is its
    body 7, it took one step, the ball is body 1 and the simulation
    advanced once. *)
Lemma getters_read_the_car_and_the_ball_witness :
  let s := snd (step ToyEngine.engine 1 0 (1 # 10) (ToyEngine.constructed [])) in
  reachable ToyEngine.engine s /\
  getCarPose ToyEngine.engine ToyEngine.Car_getPose s = (Ok 7, s) /\
  getCarVelocity ToyEngine.engine ToyEngine.Car_getVelocity s = (Ok 1%nat, s) /\
  getBallPose ToyEngine.engine ToyEngine.getBasePositionAndOrientation s =
    (Ok 1, s) /\
  getBallVelocity ToyEngine.engine ToyEngine.getBaseVelocity s = (Ok 1%nat, s).
Proof.
  cbv zeta.
  assert (H0 : reachable ToyEngine.engine (ToyEngine.constructed [])).
  { apply (reach_init ToyEngine.engine ToyEngine.urdf_paths
             ToyEngine.field_setup false (ToyEngine.empty_world [])).
    vm_compute. reflexivity. }
  pose proof (reach_step ToyEngine.engine 1 0 (1 # 10) _ _ _ H0
                (surjective_pairing _)) as Hr.
  split; [exact Hr|].
  destruct (getters_read_the_car_and_the_ball ToyEngine.engine Z nat
              ToyEngine.Car_getPose ToyEngine.Car_getVelocity
              ToyEngine.getBasePositionAndOrientation
              ToyEngine.getBaseVelocity _ Hr)
    as (carID & c & ballID & Hcars & Hball & H1 & H2 & H3 & H4).
  vm_compute in Hcars. injection Hcars as <- <-.
  vm_compute in Hball. injection Hball as <-.
  split; [exact H1|]. split; [exact H2|]. split; [exact H3 | exact H4].
Defined.

End SimFacts.

(** ** asset.py *)

Module ImageFacts.

Import Image.

Section WithPygame.

Variable Surface : Type.
Variable Rect : Type.
Variable transform_rotate : Surface -> Q -> Surface.
Variable get_rect : Surface -> Q * Q -> Rect.
Variable surface_blit : Surface -> Surface -> Rect -> Surface.

Local Abbreviation setAngle := (Image.setAngle transform_rotate).
Local Abbreviation blit := (Image.blit get_rect surface_blit).

(** C10: [setAngle] rotates the stored initial image, never the current
    one, and leaves the initial image alone; so a second [setAngle(a)]
    changes nothing, on the object and on the screen, and after
    [setAngle(b)] then [setAngle(a)] the image is the same as after
    [setAngle(a)] alone. *)
Theorem setAngle_rotates_initial_image (self : Image.t Surface) (a b : Q) :
  img (setAngle a self) = transform_rotate (init_img self) (rotation_angle a) /\
  init_img (setAngle a self) = init_img self /\
  setAngle a (setAngle a self) = setAngle a self /\
  (forall screen,
     blit screen (setAngle a (setAngle a self)) = blit screen (setAngle a self)) /\
  setAngle a (setAngle b self) = setAngle a self.
Proof. repeat split. Qed.

Variable rotates : Surface -> Q -> bool.

Local Abbreviation perform_all :=
  (Image.perform_all transform_rotate rotates).

Lemma last_angle_default accepted cs degrees :
  last_angle accepted cs (Some degrees) =
  Some (default degrees (last_angle accepted cs None)).
Proof.
  revert degrees. induction cs as [|[x y | d] rest IH]; intros degrees.
  - reflexivity.
  - apply IH.
  - cbn [last_angle]. destruct (accepted (rotation_angle d)).
    + rewrite (IH d). reflexivity.
    + apply IH.
Qed.

Lemma perform_all_eq cs : forall self : Image.t Surface,
  perform_all cs self =
  {| width := width self; length := length self;
     pos := last_pos cs (pos self); angle := angle self;
     init_img := init_img self;
     img := match last_angle (rotates (init_img self)) cs None with
            | Some a => transform_rotate (init_img self) (rotation_angle a)
            | None => img self
            end |}.
Proof.
  induction cs as [|[x y | d] rest IH]; intros self.
  - destruct self. reflexivity.
  - cbn [Image.perform_all perform last_pos last_angle]. rewrite IH.
    reflexivity.
  - cbn [Image.perform_all perform last_pos last_angle].
    destruct (rotates (init_img self) (rotation_angle d)) eqn:Hd.
    + rewrite IH. cbn [Image.setAngle init_img pos width length angle img].
      rewrite last_angle_default.
      destruct (last_angle _ rest None); reflexivity.
    + apply IH.
Qed.

Lemma last_angle_all_accepted accepted cs default :
  (forall d, In (SetAngle d) cs -> accepted (rotation_angle d) = true) ->
  last_angle accepted cs default = last_angle (fun _ => true) cs default.
Proof.
  revert default. induction cs as [|[x y | d] rest IH]; intros default Hall.
  - reflexivity.
  - cbn [last_angle]. apply IH. intros d' Hd'. apply Hall. right. exact Hd'.
  - cbn [last_angle]. rewrite (Hall d) by (left; reflexivity).
    apply IH. intros d' Hd'. apply Hall. right. exact Hd'.
Qed.

(** X15: an image that receives any sequence of [setPos] and [setAngle]
    calls, from a caller that goes on when a call raises.  A [setAngle]
    whose rotation [pygame.transform.rotate] refuses leaves the image as
    it was.  So the image ends at the position of the last [setPos] and
    shows the initial image rotated as the last [setAngle] that was not
    refused asked, or what it showed at first if there was none: earlier
    calls leave no trace, rotations do not add up, and [self.angle],
    [self.init_img] and the size are never written.  When no rotation is
    refused, this is the last [setAngle] of all.  What [blit] draws
    follows from these two calls alone. *)
Theorem only_the_last_calls_count (self : Image.t Surface) (cs : list call) :
  let self' := perform_all cs self in
  let turned := last_angle (rotates (init_img self)) cs None in
  let shown :=
    match turned with
    | Some a => transform_rotate (init_img self) (rotation_angle a)
    | None => img self
    end in
  pos self' = last_pos cs (pos self) /\
  img self' = shown /\
  angle self' = angle self /\
  init_img self' = init_img self /\
  width self' = width self /\ length self' = length self /\
  (forall screen,
     blit screen self' =
     surface_blit screen shown (get_rect shown (last_pos cs (pos self)))) /\
  ((forall d, In (SetAngle d) cs ->
      rotates (init_img self) (rotation_angle d) = true) ->
   turned = last_angle (fun _ => true) cs None).
Proof.
  cbv zeta. rewrite perform_all_eq. repeat split.
  apply last_angle_all_accepted.
Qed.

End WithPygame.
End ImageFacts.

(** ** sim_node.py *)

Module NodeFacts.

Import RacerSimROS.

(** A duration that is not positive converts to a number that is not
    positive. *)
Lemma to_sec_nonpos d : d <= 0 -> (to_sec d <= 0)%Q.
Proof.
  intros Hd. unfold to_sec. apply FloatFacts.round_nonpos.
  pose proof (Z.mod_pos_bound d 1000000000 ltac:(lia)) as Hn.
  pose proof (Z.div_mod d 1000000000 ltac:(lia)) as Hdm.
  set (secs := d / 1000000000) in *.
  set (nsecs := d mod 1000000000) in *.
  unfold Float.round. cbn [Qnum Qden].
  destruct nsecs as [|n|n] eqn:En.
  - unfold Qle, Qplus, inject_Z. simpl. lia.
  - assert (Hsecs : secs <= -1) by lia.
    pose proof (FloatFacts.round_pos_below_one n 1000000000 ltac:(lia)) as Hr.
    apply Qle_trans with (y := (inject_Z secs + 1)%Q).
    + apply Qplus_le_r. exact Hr.
    + unfold Qle, Qplus, inject_Z. simpl. lia.
  - lia.
Qed.

Section WithBackend.

Context (B : Backend) (strict_slots : bool).

Local Abbreviation node := (t B).
Local Abbreviation tick := (loop_once_with B strict_slots).

(** *** The building blocks of a tick *)

Lemma quiet_read {A} (attr : node -> A) : quiet (fun _ => True) (read B attr).
Proof. intros self. left. exists (attr self). split; [reflexivity | exact I]. Qed.

Lemma quiet_setattr path v o :
  quiet (fun _ => True) (setattr B strict_slots path v o).
Proof.
  intros self. unfold setattr.
  destruct o as [m | pv].
  - destruct (bool_decide _).
    + left. eexists. split; [reflexivity | exact I].
    + destruct strict_slots.
      * right. eexists. reflexivity.
      * left. eexists. split; [reflexivity | exact I].
  - right. eexists. reflexivity.
Qed.

Lemma fails_setattr_value path v pv :
  fails (setattr B strict_slots path v (OValue pv)).
Proof. intros self. eexists. reflexivity. Qed.

Lemma quiet_query getter :
  quiet (fun o => exists pv, o = OValue pv) (query B getter).
Proof.
  intros self. left. exists (OValue (getter (sim self))).
  split; [reflexivity | eexists; reflexivity].
Qed.

Lemma quiet_getitem o i : quiet (fun _ => True) (getitem B o i).
Proof.
  intros self. unfold getitem, lift.
  destruct o as [m | pv].
  - right. eexists. reflexivity.
  - destruct (index pv i) as [q | e |] eqn:E.
    + left. eexists. split; [reflexivity | exact I].
    + right. eexists. reflexivity.
    + exfalso. unfold index in E. destruct pv as [q | items]; [discriminate|].
      destruct (items !! i); discriminate.
Qed.

Lemma quiet_weaken {A} (P : A -> Prop) (m : M node A) :
  quiet P m -> quiet (fun _ => True) m.
Proof.
  intros H self. destruct (H self) as [(a & E & _) | (e & E)].
  - left. exists a. split; [exact E | exact I].
  - right. exists e. exact E.
Qed.

Lemma emits_one_publish pub o : emits_one pub (publish B pub o).
Proof. intros self. right. exists o. reflexivity. Qed.

Lemma emits_one_bind {A} (P : A -> Prop) pub (m : M node A) k :
  quiet P m -> (forall a, P a -> emits_one pub (k a)) ->
  emits_one pub (bind m k).
Proof.
  intros Hm Hk self.
  destruct (Hm self) as [(a & E & Pa) | (e & E)].
  - rewrite (bind_ok _ _ _ _ _ E). apply Hk, Pa.
  - left. exists e. apply bind_raise, E.
Qed.

Lemma fails_bind {A C} (P : A -> Prop) (m : M node A) (k : A -> M node C) :
  quiet P m -> (forall a, P a -> fails (k a)) -> fails (bind m k).
Proof.
  intros Hm Hk self.
  destruct (Hm self) as [(a & E & Pa) | (e & E)].
  - rewrite (bind_ok _ _ _ _ _ E). apply Hk, Pa.
  - exists e. apply bind_raise, E.
Qed.

Lemma fails_bind_l {A C} (m : M node A) (k : A -> M node C) :
  fails m -> fails (bind m k).
Proof. intros Hm self. destruct (Hm self) as [e E]. exists e. apply bind_raise, E. Qed.

Ltac quiet_step :=
  first [ apply quiet_read | apply quiet_setattr | apply quiet_getitem
        | eapply quiet_weaken; apply quiet_query ].

Ltac publish_chain :=
  repeat first
    [ apply emits_one_publish
    | eapply (emits_one_bind (fun _ => True)); [quiet_step | intros ? _] ].

Lemma publish_ball_emits now : emits_one ball_pub (publish_ball B strict_slots now).
Proof. unfold publish_ball. publish_chain. Qed.

Lemma publish_bot_emits now : emits_one bot_pub (publish_bot B strict_slots now).
Proof. unfold publish_bot. publish_chain. Qed.

(** Line 130 always raises, if nothing before it did: [goal_msg] is the
    point by then. *)
Lemma publish_goal_fails now : fails (publish_goal B strict_slots now).
Proof.
  unfold publish_goal.
  eapply (fails_bind (fun _ => True)); [quiet_step | intros goal_msg _].
  eapply (fails_bind (fun _ => True)); [quiet_step | intros frame _].
  eapply (fails_bind (fun _ => True)); [quiet_step | intros goal_msg' _].
  eapply fails_bind; [apply quiet_query | intros point [pv ->]].
  eapply (fails_bind (fun _ => True)); [quiet_step | intros v _].
  apply fails_bind_l, fails_setattr_value.
Qed.

(** *** The command callback *)

Lemma command_cb_eq now command_msg (self : node) :
  command_cb B now command_msg self =
  (Ok tt,
   {| sim := sim self; lock := lock self;
      last_command :=
        Some (now, x (linear command_msg), z (angular command_msg));
      last_time := last_time self; frame_id := frame_id self;
      timeout := timeout self; trace := trace self |}).
Proof. reflexivity. Qed.

Lemma callbacks_eq arrivals (self : node) :
  callbacks B arrivals self =
  (Ok tt,
   {| sim := sim self; lock := lock self;
      last_command := written arrivals (last_command self);
      last_time := last_time self; frame_id := frame_id self;
      timeout := timeout self; trace := trace self |}).
Proof.
  revert self. induction arrivals as [|[now msg] rest IH]; intros self.
  - destruct self; reflexivity.
  - cbn [callbacks]. rewrite (bind_ok _ _ _ _ _ (command_cb_eq now msg self)).
    rewrite IH. reflexivity.
Qed.

Lemma written_some arrivals c : exists c', written arrivals (Some c) = Some c'.
Proof.
  revert c. induction arrivals as [|[now msg] rest IH]; intros c; simpl.
  - exists c. reflexivity.
  - apply IH.
Qed.


(** *** Lines 90 to 96 *)

Lemma iterate_game_eq now previous during (self : node) :
  iterate_game B now previous during self =
  (Ok tt, after_game B now previous during self).
Proof.
  unfold iterate_game, after_game.
  rewrite (bind_ok _ _ self (last_command self) self) by reflexivity.
  rewrite (bind_ok _ _ _ _ _ (callbacks_eq during self)).
  destruct (last_command self) as [c0|] eqn:Ec; [|reflexivity].
  destruct (written_some during c0) as [[[t0 linear0] angular0] Ew].
  rewrite Ew. unfold bind, read, decay. simpl.
  destruct (Qle_bool _ _); reflexivity.
Qed.

(** *** A whole tick *)

Lemma tick_blocked now during (self : node) :
  lock self = true -> tick now during self = (Block, self).
Proof.
  intros H. unfold loop_once_with, lock_acquire, bind, read. simpl.
  rewrite H. reflexivity.
Qed.

Lemma lock_acquire_free (self : node) :
  lock self = false -> lock_acquire B self = (Ok tt, locked self).
Proof.
  intros H. unfold lock_acquire, bind, read. simpl. rewrite H. reflexivity.
Qed.

(** The first tick: the timestamp is recorded, nothing else happens. *)
Lemma tick_first now during (self : node) :
  lock self = false -> last_time self = None ->
  tick now during self =
  (Ok tt,
   {| sim := sim self; lock := false;
      last_command := written during (last_command self);
      last_time := Some now; frame_id := frame_id self;
      timeout := timeout self; trace := trace self ++ [Acquire; Release] |}).
Proof.
  intros Hlock Hfirst. unfold loop_once_with.
  rewrite (bind_ok _ _ _ _ _ (lock_acquire_free self Hlock)).
  rewrite (bind_ok _ _ (locked self) (last_time self) (locked self))
    by reflexivity.
  rewrite Hfirst.
  rewrite (bind_ok _ _ _ _ _ (callbacks_eq during (locked self))).
  unfold lock_release, set_lock, emit, modify, read, bind. simpl.
  rewrite <- app_assoc. reflexivity.
Qed.

(** A later tick: the game is iterated, at most the ball and the bot are
    published, and the tick ends in an exception, with the lock still held
    and [last_time] as it was. *)
Lemma tick_later now during (self : node) previous :
  lock self = false -> last_time self = Some previous ->
  exists e pubs,
    tick now during self =
    (Raise e, add_events pubs (after_game B now previous during (locked self)))
    /\ (pubs = [] \/ (exists o, pubs = [Publish ball_pub o]) \/
        (exists o1 o2, pubs = [Publish ball_pub o1; Publish bot_pub o2])).
Proof.
  intros Hlock Hprev. unfold loop_once_with.
  rewrite (bind_ok _ _ _ _ _ (lock_acquire_free self Hlock)).
  rewrite (bind_ok _ _ (locked self) (last_time self) (locked self))
    by reflexivity.
  rewrite Hprev.
  set (s1 := after_game B now previous during (locked self)).
  assert (Hnil : add_events [] s1 = s1).
  { destruct s1. unfold add_events. simpl. rewrite app_nil_r. reflexivity. }
  destruct (publish_ball_emits now s1) as [(e & Eball) | (o1 & Eball)].
  { exists e, []. split; [|left; reflexivity].
    rewrite Hnil. apply bind_raise.
    rewrite (bind_ok _ _ _ _ _ (iterate_game_eq now previous during _)).
    apply bind_raise, Eball. }
  set (s2 := add_events [Publish ball_pub o1] s1) in *.
  destruct (publish_bot_emits now s2) as [(e & Ebot) | (o2 & Ebot)].
  { exists e, [Publish ball_pub o1]. split; [|right; left; eexists; reflexivity].
    apply bind_raise.
    rewrite (bind_ok _ _ _ _ _ (iterate_game_eq now previous during _)).
    rewrite (bind_ok _ _ _ _ _ Eball).
    apply bind_raise, Ebot. }
  set (s3 := add_events [Publish bot_pub o2] s2) in *.
  destruct (publish_goal_fails now s3) as [e Egoal].
  exists e, [Publish ball_pub o1; Publish bot_pub o2].
  split; [|right; right; do 2 eexists; reflexivity].
  apply bind_raise.
  rewrite (bind_ok _ _ _ _ _ (iterate_game_eq now previous during _)).
  rewrite (bind_ok _ _ _ _ _ Eball).
  rewrite (bind_ok _ _ _ _ _ Ebot).
  rewrite Egoal. f_equal.
  unfold s3, s2, add_events. simpl. rewrite <- app_assoc. reflexivity.
Qed.

Lemma tick_returns_inv now during (self self' : node) :
  tick now during self = (Ok tt, self') ->
  lock self = false /\ last_time self = None /\ last_time self' = Some now.
Proof.
  intros H.
  destruct (lock self) eqn:Hlock.
  { rewrite (tick_blocked _ _ _ Hlock) in H. discriminate. }
  destruct (last_time self) as [previous|] eqn:Hprev.
  { destruct (tick_later now during self previous Hlock Hprev)
      as (e & pubs & E & _).
    rewrite E in H. discriminate. }
  rewrite (tick_first _ _ _ Hlock Hprev) in H.
  injection H as <-. auto.
Qed.

(** *** The events of a tick *)

Lemma events_eq {A} (m : M node A) (self : node) evs :
  trace (snd (m self)) = trace self ++ evs -> events m self = evs.
Proof. intros H. unfold events. rewrite H. apply drop_app_length. Qed.

Lemma events_blocked now during (self : node) :
  lock self = true -> events (tick now during) self = [].
Proof.
  intros H. apply events_eq. rewrite (tick_blocked _ _ _ H). simpl.
  rewrite app_nil_r. reflexivity.
Qed.

Lemma events_first now during (self : node) :
  lock self = false -> last_time self = None ->
  events (tick now during) self = [Acquire; Release].
Proof.
  intros Hlock Hfirst. apply events_eq.
  rewrite (tick_first _ _ _ Hlock Hfirst). reflexivity.
Qed.

Lemma trace_after_game now previous during (self : node) :
  trace (after_game B now previous during self) =
  trace self ++ game_steps B now previous during self.
Proof.
  unfold after_game, game_steps.
  destruct (last_command self); [|simpl; rewrite app_nil_r; reflexivity].
  destruct (written during _) as [c|]; [|simpl; rewrite app_nil_r; reflexivity].
  destruct (decay now (timeout self) c). reflexivity.
Qed.

Lemma events_later now during (self : node) previous :
  lock self = false -> last_time self = Some previous ->
  exists pubs,
    events (tick now during) self =
    Acquire :: game_steps B now previous during self ++ pubs
    /\ (pubs = [] \/ (exists o, pubs = [Publish ball_pub o]) \/
        (exists o1 o2, pubs = [Publish ball_pub o1; Publish bot_pub o2])).
Proof.
  intros Hlock Hprev.
  destruct (tick_later now during self previous Hlock Hprev)
    as (e & pubs & E & Hpubs).
  exists pubs. split; [|exact Hpubs].
  apply events_eq. rewrite E. cbn [snd add_events trace].
  rewrite trace_after_game. cbn [locked trace].
  rewrite <- !app_assoc. reflexivity.
Qed.

Lemma steps_of_later now previous during (self : node) pubs :
  (pubs = [] \/ (exists o, pubs = [Publish ball_pub o]) \/
   (exists o1 o2, pubs = [Publish ball_pub o1; Publish bot_pub o2])) ->
  List.filter is_step (Acquire :: game_steps B now previous during self ++ pubs)
  = game_steps B now previous during self.
Proof.
  intros Hpubs. unfold game_steps.
  destruct (last_command self) as [c0|];
    [destruct (written during (Some c0)) as [c|];
     [destruct (decay now (timeout self) c)|]|];
    destruct Hpubs as [-> | [(o & ->) | (o1 & o2 & ->)]]; reflexivity.
Qed.


(** *** The claims about the tick *)

(** C1, as amended: on every tick after the first that finds a command
    stored at line 90, with [(t, linear, angular)] the tuple it reads at
    line 92 (the stored one, or the one written by the last callback that
    ran in between), [step] is called once; it receives [(0, 0)] when
    [(now - t).to_sec() >= timeout] and [(linear, angular)] when
    [(now - t).to_sec() < timeout], with [now] the time stamp of the
    tick. *)
Theorem command_decay_after_first_tick (self : node) now during previous
    t linear angular :
  lock self = false ->
  last_time self = Some previous ->
  is_Some (last_command self) ->
  written during (last_command self) = Some (t, linear, angular) ->
  let stepped := List.filter is_step (events (tick now during) self) in
  ((timeout self <= to_sec (now - t))%Q ->
     stepped = [Step 0 0 (to_sec (now - previous))]) /\
  ((to_sec (now - t) < timeout self)%Q ->
     stepped = [Step linear angular (to_sec (now - previous))]).
Proof.
  intros Hlock Hprev [c0 Hcmd] Hread stepped.
  destruct (events_later now during self previous Hlock Hprev)
    as (pubs & E & Hpubs).
  assert (Hstepped : stepped = game_steps B now previous during self).
  { unfold stepped. rewrite E. apply steps_of_later, Hpubs. }
  rewrite Hstepped. unfold game_steps. rewrite Hcmd in *. rewrite Hread.
  cbn [decay].
  split; intros Hage.
  - apply Qle_bool_iff in Hage. rewrite Hage. reflexivity.
  - apply Qle_bool_false in Hage. rewrite Hage. reflexivity.
Qed.

(** C3: the first tick ([last_time] is [None]) never advances the physics
    state and never calls [step]; having taken the lock, it records its time
    stamp as [last_time], gives the lock back and returns.  Only a command
    callback that runs meanwhile changes anything else, namely
    [last_command]. *)
Theorem first_tick_only_records_time (self : node) now during :
  last_time self = None ->
  sim (snd (tick now during self)) = sim self /\
  List.filter is_step (events (tick now during) self) = [] /\
  (lock self = false ->
   exists self',
     tick now during self = (Ok tt, self') /\
     last_time self' = Some now /\
     last_command self' = written during (last_command self) /\
     lock self' = false /\
     events (tick now during) self = [Acquire; Release]).
Proof.
  intros Hfirst. destruct (lock self) eqn:Hlock.
  - rewrite (events_blocked _ _ _ Hlock), (tick_blocked _ _ _ Hlock).
    repeat split. discriminate.
  - rewrite (events_first _ _ _ Hlock Hfirst), (tick_first _ _ _ Hlock Hfirst).
    repeat split. intros _. eexists. repeat split.
Qed.

(** C2: what [loop_once] does instead.  No tick publishes on the goal pose
    topic, and no tick publishes more than two messages: the third
    [publish] is written on [self.ball_pub] and is never reached. *)
Theorem goal_pose_is_never_published (self : node) now during :
  List.filter (published_on goal_pub) (events (tick now during) self) = [] /\
  (List.length (List.filter is_publish (events (tick now during) self)) <= 2)%nat.
Proof.
  destruct (lock self) eqn:Hlock.
  { rewrite (events_blocked _ _ _ Hlock). split; [reflexivity | simpl; lia]. }
  destruct (last_time self) as [previous|] eqn:Hprev.
  - destruct (events_later now during self previous Hlock Hprev)
      as (pubs & -> & Hpubs).
    unfold game_steps.
    destruct (last_command self) as [c0|];
      [destruct (written during (Some c0)) as [c|];
       [destruct (decay now (timeout self) c)|]|];
      destruct Hpubs as [-> | [(o & ->) | (o1 & o2 & ->)]];
      (split; [reflexivity | simpl; lia]).
  - rewrite (events_first _ _ _ Hlock Hprev). split; [reflexivity | simpl; lia].
Qed.

(** C8: what [loop_once] does instead.  A tick after the first with no
    command stored ends in an exception; [step] is not called, but
    [last_time] is not updated and the lock stays held. *)
Theorem tick_without_command_raises (self : node) now previous :
  lock self = false ->
  last_time self = Some previous ->
  last_command self = None ->
  exists e self',
    loop_once B strict_slots now self = (Raise e, self') /\
    last_time self' = Some previous /\
    lock self' = true /\
    List.filter is_step (events (loop_once B strict_slots now) self) = [].
Proof.
  intros Hlock Hprev Hcmd.
  destruct (tick_later now [] self previous Hlock Hprev) as (e & pubs & E & Hpubs).
  exists e. eexists. split; [exact E|].
  unfold after_game. cbn [locked last_command written]. rewrite Hcmd.
  cbn [add_events last_time lock].
  repeat split; [exact Hprev|].
  destruct (events_later now [] self previous Hlock Hprev) as (pubs' & E' & Hpubs').
  unfold loop_once. rewrite E'. rewrite steps_of_later by exact Hpubs'.
  unfold game_steps. rewrite Hcmd. reflexivity.
Qed.

(** *** Assignments on messages *)

Lemma declared_header t : bool_decide ("header" ∈ slots t) = true.
Proof. destruct t; vm_compute; reflexivity. Qed.

Lemma declared_pose t : bool_decide ("pose" ∈ slots t) = true.
Proof. destruct t; vm_compute; reflexivity. Qed.

Lemma declared_twist : bool_decide ("twist" ∈ slots Odometry) = true.
Proof. vm_compute. reflexivity. Qed.

Lemma undeclared_frame_id t : bool_decide ("frame_id" ∈ slots t) = false.
Proof. destruct t; vm_compute; reflexivity. Qed.

Lemma setattr_declared root rest v m (self : node) :
  bool_decide (root ∈ slots (type_of m)) = true ->
  setattr B strict_slots (root :: rest) v (OMessage m) self =
  (Ok (OMessage {| type_of := type_of m;
                   fields := <[String.concat "." (root :: rest) := v]> (fields m);
                   undeclared := undeclared m |}), self).
Proof. intros H. unfold setattr. cbn [hd]. rewrite H. reflexivity. Qed.

Lemma bind_setattr_declared {A} root rest v m (k : object -> M node A)
    (self : node) :
  bool_decide (root ∈ slots (type_of m)) = true ->
  bind (setattr B strict_slots (root :: rest) v (OMessage m)) k self =
  k (OMessage {| type_of := type_of m;
                 fields := <[String.concat "." (root :: rest) := v]> (fields m);
                 undeclared := undeclared m |}) self.
Proof. intros H. apply bind_ok, setattr_declared, H. Qed.

Lemma setattr_frame_id v m (self : node) :
  setattr B strict_slots ["frame_id"] v (OMessage m) self =
  if strict_slots then (Raise (AttributeError "frame_id"), self)
  else (Ok (OMessage {| type_of := type_of m; fields := fields m;
                        undeclared := <["frame_id" := v]> (undeclared m) |}),
        self).
Proof.
  unfold setattr. cbn [hd]. rewrite undeclared_frame_id.
  destruct strict_slots; reflexivity.
Qed.

Lemma bind_setattr_frame_id {A} v m (k : object -> M node A) (self : node) :
  strict_slots = false ->
  bind (setattr B strict_slots ["frame_id"] v (OMessage m)) k self =
  k (OMessage {| type_of := type_of m; fields := fields m;
                 undeclared := <["frame_id" := v]> (undeclared m) |}) self.
Proof.
  intros H. apply bind_ok. rewrite setattr_frame_id, H. reflexivity.
Qed.

Lemma bind_read {A C} (attr : node -> A) (k : A -> M node C) (self : node) :
  bind (read B attr) k self = k (attr self) self.
Proof. reflexivity. Qed.

Lemma bind_query {A} getter (k : object -> M node A) (self : node) :
  bind (query B getter) k self = k (OValue (getter (sim self))) self.
Proof. reflexivity. Qed.

Lemma bind_getitem {A} items i q (k : Q -> M node A) (self : node) :
  items !! i = Some q ->
  bind (getitem B (OValue (PSeq items)) i) k self = k q self.
Proof.
  intros H. unfold bind, getitem, lift, index. rewrite H. reflexivity.
Qed.

Lemma publish_ball_strict now (self : node) :
  strict_slots = true ->
  publish_ball B strict_slots now self = (Raise (AttributeError "frame_id"), self).
Proof.
  intros Hstrict. unfold publish_ball.
  rewrite bind_setattr_declared by apply declared_header.
    cbn [type_of fields undeclared new].
  rewrite bind_read.
  apply bind_raise. rewrite setattr_frame_id, Hstrict. reflexivity.
Qed.

Lemma at_least_item n v i :
  at_least n v -> (i < n)%nat ->
  exists items q, v = PSeq items /\ items !! i = Some q /\ item v i = Some q.
Proof.
  intros (items & -> & Hlen) Hi.
  destruct (items !! i) as [q|] eqn:E.
  - exists items, q. repeat split; assumption.
  - apply lookup_ge_None in E. lia.
Qed.

(** The ball message, as lines 99 to 104 fill it. *)
Lemma publish_ball_lenient now (self : node) :
  strict_slots = false ->
  at_least 2 (ball_getPoint B (sim self)) ->
  exists m,
    publish_ball B strict_slots now self =
      (Ok tt, add_events [Publish ball_pub (OMessage m)] self) /\
    type_of m = PoseWithCovarianceStamped /\
    fields m !! "header.stamp" = Some (ATime now) /\
    fields m !! "header.frame_id" = None /\
    fields m !! "pose.pose.position.x" =
      AFloat <$> item (ball_getPoint B (sim self)) 0 /\
    fields m !! "pose.pose.position.y" =
      AFloat <$> item (ball_getPoint B (sim self)) 1 /\
    undeclared m !! "frame_id" = Some (AStr (frame_id self)).
Proof.
  intros Hstrict Hpoint.
  destruct (at_least_item _ _ 0%nat Hpoint ltac:(lia)) as (items & x0 & E & H0 & I0).
  destruct (at_least_item _ _ 1%nat Hpoint ltac:(lia)) as (items' & x1 & E' & H1 & I1).
  rewrite I0, I1. rewrite E in E'. injection E' as <-.
  eexists. split.
  - unfold publish_ball.
    rewrite bind_setattr_declared by apply declared_header.
    cbn [type_of fields undeclared new].
    rewrite bind_read.
    rewrite bind_setattr_frame_id by exact Hstrict.
    cbn [type_of fields undeclared new].
    rewrite bind_query, E.
    rewrite (bind_getitem _ 0%nat x0) by exact H0.
    rewrite bind_setattr_declared by apply declared_pose.
    cbn [type_of fields undeclared new].
    rewrite (bind_getitem _ 1%nat x1) by exact H1.
    rewrite bind_setattr_declared by apply declared_pose.
    cbn [type_of fields undeclared new].
    reflexivity.
  - cbn [type_of fields undeclared new].
    repeat split; vm_compute; reflexivity.
Qed.

(** The odometry message, as lines 108 to 122 fill it. *)
Lemma publish_bot_lenient now (self : node) :
  at_least 2 (car_getPoint B (sim self)) ->
  at_least 4 (car_getQuaternion B (sim self)) ->
  at_least 2 (car_body_linearVelocity B (sim self)) ->
  at_least 2 (car_body_angularVelocity B (sim self)) ->
  exists m,
    publish_bot B strict_slots now self =
      (Ok tt, add_events [Publish bot_pub (OMessage m)] self) /\
    type_of m = Odometry /\
    (fields m !! "header.stamp" = Some (ATime now) /\
     fields m !! "header.frame_id" = Some (AStr (frame_id self))) /\
    (fields m !! "pose.pose.position.x" =
       AFloat <$> item (car_getPoint B (sim self)) 0 /\
     fields m !! "pose.pose.position.y" =
       AFloat <$> item (car_getPoint B (sim self)) 1) /\
    (fields m !! "pose.pose.orientation.w" =
       AFloat <$> item (car_getQuaternion B (sim self)) 0 /\
     fields m !! "pose.pose.orientation.z" =
       AFloat <$> item (car_getQuaternion B (sim self)) 3 /\
     fields m !! "pose.pose.orientation.x" = None /\
     fields m !! "pose.pose.orientation.y" = None) /\
    (fields m !! "twist.twist.linear.x" =
       AFloat <$> item (car_body_linearVelocity B (sim self)) 0 /\
     fields m !! "twist.twist.linear.y" =
       AFloat <$> item (car_body_linearVelocity B (sim self)) 1) /\
    (fields m !! "twist.twist.angular.x" =
       AFloat <$> item (car_body_angularVelocity B (sim self)) 0 /\
     fields m !! "twist.twist.angular.y" =
       AFloat <$> item (car_body_angularVelocity B (sim self)) 1 /\
     fields m !! "twist.twist.angular.z" = None) /\
    undeclared m = ∅.
Proof.
  intros Hp Hq Hl Ha.
  destruct (at_least_item _ _ 0%nat Hp ltac:(lia)) as (ps & p0 & Ep & Hp0 & Ip0).
  destruct (at_least_item _ _ 1%nat Hp ltac:(lia)) as (ps' & p1 & Ep' & Hp1 & Ip1).
  rewrite Ep in Ep'. injection Ep' as <-.
  destruct (at_least_item _ _ 0%nat Hq ltac:(lia)) as (qs & q0 & Eq & Hq0 & Iq0).
  destruct (at_least_item _ _ 3%nat Hq ltac:(lia)) as (qs' & q3 & Eq' & Hq3 & Iq3).
  rewrite Eq in Eq'. injection Eq' as <-.
  destruct (at_least_item _ _ 0%nat Hl ltac:(lia)) as (ls & l0 & El & Hl0 & Il0).
  destruct (at_least_item _ _ 1%nat Hl ltac:(lia)) as (ls' & l1 & El' & Hl1 & Il1).
  rewrite El in El'. injection El' as <-.
  destruct (at_least_item _ _ 0%nat Ha ltac:(lia)) as (az & a0 & Ea & Ha0 & Ia0).
  destruct (at_least_item _ _ 1%nat Ha ltac:(lia)) as (az' & a1 & Ea' & Ha1 & Ia1).
  rewrite Ea in Ea'. injection Ea' as <-.
  rewrite Ip0, Ip1, Iq0, Iq3, Il0, Il1, Ia0, Ia1.
  eexists. split.
  - unfold publish_bot.
    rewrite bind_setattr_declared by apply declared_header.
    cbn [type_of fields undeclared new].
    rewrite bind_read.
    rewrite bind_setattr_declared by apply declared_header.
    cbn [type_of fields undeclared new].
    rewrite bind_query, Ep.
    rewrite (bind_getitem _ 0%nat p0) by exact Hp0.
    rewrite bind_setattr_declared by apply declared_pose.
    cbn [type_of fields undeclared new].
    rewrite (bind_getitem _ 1%nat p1) by exact Hp1.
    rewrite bind_setattr_declared by apply declared_pose.
    cbn [type_of fields undeclared new].
    rewrite bind_query, Eq.
    rewrite (bind_getitem _ 0%nat q0) by exact Hq0.
    rewrite bind_setattr_declared by apply declared_pose.
    cbn [type_of fields undeclared new].
    rewrite (bind_getitem _ 3%nat q3) by exact Hq3.
    rewrite bind_setattr_declared by apply declared_pose.
    cbn [type_of fields undeclared new].
    rewrite bind_query, El.
    rewrite (bind_getitem _ 0%nat l0) by exact Hl0.
    rewrite bind_setattr_declared by apply declared_twist.
    cbn [type_of fields undeclared new].
    rewrite (bind_getitem _ 1%nat l1) by exact Hl1.
    rewrite bind_setattr_declared by apply declared_twist.
    cbn [type_of fields undeclared new].
    rewrite bind_query, Ea.
    rewrite (bind_getitem _ 0%nat a0) by exact Ha0.
    rewrite bind_setattr_declared by apply declared_twist.
    cbn [type_of fields undeclared new].
    rewrite (bind_getitem _ 1%nat a1) by exact Ha1.
    rewrite bind_setattr_declared by apply declared_twist.
    cbn [type_of fields undeclared new].
    reflexivity.
  - cbn [type_of fields undeclared new].
    repeat split; vm_compute; reflexivity.
Qed.

(** *** A later tick, block by block *)

Lemma tick_later_eq now during (self : node) previous :
  lock self = false -> last_time self = Some previous ->
  tick now during self =
  bind (publish_ball B strict_slots now;;;
        publish_bot B strict_slots now;;;
        publish_goal B strict_slots now)
       (fun _ => set_last_time B (Some now);;; lock_release B)
       (after_game B now previous during (locked self)).
Proof.
  intros Hlock Hprev. unfold loop_once_with.
  rewrite (bind_ok _ _ _ _ _ (lock_acquire_free self Hlock)).
  rewrite (bind_ok _ _ (locked self) (last_time self) (locked self))
    by reflexivity.
  rewrite Hprev. unfold bind at 1. unfold bind at 1.
  rewrite iterate_game_eq. reflexivity.
Qed.

(** What follows the ball: at most the odometry message, then an
    exception. *)
Lemma bot_goal_tail now (self : node) {A} (k : unit -> M node A) :
  exists e rest,
    bind (publish_bot B strict_slots now;;; publish_goal B strict_slots now)
         k self = (Raise e, add_events rest self) /\
    (rest = [] \/ exists o, rest = [Publish bot_pub o]).
Proof.
  assert (Hnil : add_events [] self = self).
  { destruct self. unfold add_events. simpl. rewrite app_nil_r. reflexivity. }
  destruct (publish_bot_emits now self) as [(e & E) | (o & E)].
  - exists e, []. split; [|left; reflexivity].
    rewrite Hnil. apply bind_raise, bind_raise, E.
  - destruct (publish_goal_fails now
                (add_events [Publish bot_pub o] self)) as [e Eg].
    exists e, [Publish bot_pub o]. split; [|right; eexists; reflexivity].
    apply bind_raise. rewrite (bind_ok _ _ _ _ _ E). exact Eg.
Qed.

Lemma trace_add_events evs (self : node) :
  trace (add_events evs self) = trace self ++ evs.
Proof. reflexivity. Qed.

Lemma trace_later now previous during (self : node) :
  trace (after_game B now previous during (locked self)) =
  trace self ++ Acquire :: game_steps B now previous during self.
Proof.
  rewrite trace_after_game. cbn [locked trace].
  rewrite <- app_assoc. reflexivity.
Qed.

Lemma game_steps_are_steps now previous during (self : node) :
  List.filter is_publish (game_steps B now previous during self) = [] /\
  List.filter (published_on bot_pub) (game_steps B now previous during self) = [] /\
  (List.length (game_steps B now previous during self) <= 1)%nat /\
  List.filter is_step (game_steps B now previous during self) =
    game_steps B now previous during self.
Proof.
  unfold game_steps.
  destruct (last_command self); [|repeat split; simpl; lia].
  destruct (written during _) as [c|]; [|repeat split; simpl; lia].
  destruct (decay now (timeout self) c). repeat split; simpl; lia.
Qed.

(** *** More about ticks *)

(** X11: with message classes that refuse an attribute they do not
    declare, no tick ever publishes anything: a tick after the first calls
    [step] as usual, then raises [AttributeError] on [frame_id] at
    line 101. *)
Theorem strict_messages_publish_nothing (self : node) now during :
  strict_slots = true ->
  List.filter is_publish (events (tick now during) self) = [] /\
  (forall previous,
     lock self = false -> last_time self = Some previous ->
     tick now during self =
       (Raise (AttributeError "frame_id"),
        after_game B now previous during (locked self)) /\
     events (tick now during) self =
       Acquire :: game_steps B now previous during self).
Proof.
  intros Hstrict.
  assert (Hlater : forall previous,
            lock self = false -> last_time self = Some previous ->
            tick now during self =
              (Raise (AttributeError "frame_id"),
               after_game B now previous during (locked self)) /\
            events (tick now during) self =
              Acquire :: game_steps B now previous during self).
  { intros previous Hlock Hprev.
    assert (E : tick now during self =
                (Raise (AttributeError "frame_id"),
                 after_game B now previous during (locked self))).
    { rewrite (tick_later_eq _ _ _ _ Hlock Hprev).
      apply bind_raise, bind_raise, publish_ball_strict, Hstrict. }
    split; [exact E|].
    apply events_eq. rewrite E. cbn [snd]. apply trace_later. }
  split; [|exact Hlater].
  destruct (lock self) eqn:Hlock.
  { rewrite (events_blocked _ _ _ Hlock). reflexivity. }
  destruct (last_time self) as [previous|] eqn:Hprev.
  - destruct (Hlater previous eq_refl eq_refl) as [_ ->].
    cbn [List.filter is_publish].
    apply (game_steps_are_steps now previous during self).
  - rewrite (events_first _ _ _ Hlock Hprev). reflexivity.
Qed.

(** X12: with lenient message classes, the ball message of a tick after
    the first carries the time stamp of the tick and the first two
    coordinates of the ball as the backend gives them after the [step] of
    that tick; [self.frame_id] goes to an attribute of the message itself,
    and the frame id of the header is never set. *)
Theorem ball_message_content (self : node) now during previous :
  strict_slots = false ->
  lock self = false ->
  last_time self = Some previous ->
  let after := after_game B now previous during (locked self) in
  at_least 2 (ball_getPoint B (sim after)) ->
  exists m rest,
    events (tick now during) self =
      Acquire :: game_steps B now previous during self
        ++ Publish ball_pub (OMessage m) :: rest /\
    type_of m = PoseWithCovarianceStamped /\
    fields m !! "header.stamp" = Some (ATime now) /\
    fields m !! "header.frame_id" = None /\
    fields m !! "pose.pose.position.x" =
      AFloat <$> item (ball_getPoint B (sim after)) 0 /\
    fields m !! "pose.pose.position.y" =
      AFloat <$> item (ball_getPoint B (sim after)) 1 /\
    undeclared m !! "frame_id" = Some (AStr (frame_id self)).
Proof.
  intros Hstrict Hlock Hprev after Hpoint.
  destruct (publish_ball_lenient now after Hstrict Hpoint)
    as (m & Eball & Htype & Hstamp & Hframe & Hx & Hy & Hextra).
  destruct (bot_goal_tail now (add_events [Publish ball_pub (OMessage m)] after)
              (fun _ => set_last_time B (Some now);;; lock_release B))
    as (e & rest & Etail & _).
  exists m, rest. split.
  - apply events_eq. rewrite (tick_later_eq _ _ _ _ Hlock Hprev).
    fold after. unfold bind at 1. unfold bind at 1.
    rewrite Eball.
    change (trace (snd (bind (publish_bot B strict_slots now;;;
                              publish_goal B strict_slots now)
                             (fun _ => set_last_time B (Some now);;; lock_release B)
                             (add_events [Publish ball_pub (OMessage m)] after)))
            = trace self ++ Acquire :: game_steps B now previous during self
                ++ Publish ball_pub (OMessage m) :: rest).
    rewrite Etail. cbn [snd]. rewrite !trace_add_events.
    unfold after. rewrite trace_later.
    rewrite <- !app_assoc. reflexivity.
  - repeat split; try assumption.
    replace (frame_id self) with (frame_id after); [exact Hextra|].
    unfold after, after_game.
    destruct (last_command (locked self)); [|reflexivity].
    destruct (written during _) as [c|]; [|reflexivity].
    destruct (decay now _ c). reflexivity.
Qed.

Lemma publish_goal_lenient now (self : node) :
  strict_slots = false ->
  at_least 1 (goal_getPoint B (sim self)) ->
  publish_goal B strict_slots now self = (Raise (AttributeError "pose"), self).
Proof.
  intros Hstrict Hpoint.
  destruct (at_least_item _ _ 0%nat Hpoint ltac:(lia)) as (items & g0 & E & H0 & _).
  unfold publish_goal.
  rewrite bind_setattr_declared by apply declared_header.
  cbn [type_of fields undeclared new].
  rewrite bind_read.
  rewrite bind_setattr_frame_id by exact Hstrict.
  cbn [type_of fields undeclared new].
  rewrite bind_query, E.
  rewrite (bind_getitem _ 0%nat g0) by exact H0.
  reflexivity.
Qed.

Lemma after_game_frame now previous during (self : node) :
  frame_id (after_game B now previous during self) = frame_id self /\
  lock (after_game B now previous during self) = lock self /\
  last_time (after_game B now previous during self) = last_time self /\
  last_command (after_game B now previous during self) =
    written during (last_command self).
Proof.
  unfold after_game.
  destruct (last_command self); [|repeat split].
  destruct (written during _) as [c|]; [|repeat split].
  destruct (decay now _ c). repeat split.
Qed.

(** X13: when the backend answers every query of lines 102 to 122 with a
    sequence that is long enough, and the message classes are lenient, a
    tick after the first publishes the ball message and then the odometry
    message, and ends in [AttributeError] on [pose] at line 130.  The
    odometry message carries the time stamp of the tick, [self.frame_id] in
    its header, and the position, the [w] and [z] of the orientation and
    the [x] and [y] of both velocities of the car after the [step] of this
    tick; the [x] and [y] of the orientation and the [z] of the angular
    velocity are never set. *)
Theorem tick_publishes_ball_then_odometry (self : node) now during previous :
  strict_slots = false ->
  supplies_sequences B ->
  (forall s, at_least 1 (goal_getPoint B s)) ->
  lock self = false ->
  last_time self = Some previous ->
  let after := after_game B now previous during (locked self) in
  exists ball odom,
    tick now during self =
      (Raise (AttributeError "pose"),
       add_events [Publish ball_pub (OMessage ball);
                   Publish bot_pub (OMessage odom)] after) /\
    type_of odom = Odometry /\
    (fields odom !! "header.stamp" = Some (ATime now) /\
     fields odom !! "header.frame_id" = Some (AStr (frame_id self))) /\
    (fields odom !! "pose.pose.position.x" =
       AFloat <$> item (car_getPoint B (sim after)) 0 /\
     fields odom !! "pose.pose.position.y" =
       AFloat <$> item (car_getPoint B (sim after)) 1) /\
    (fields odom !! "pose.pose.orientation.w" =
       AFloat <$> item (car_getQuaternion B (sim after)) 0 /\
     fields odom !! "pose.pose.orientation.z" =
       AFloat <$> item (car_getQuaternion B (sim after)) 3 /\
     fields odom !! "pose.pose.orientation.x" = None /\
     fields odom !! "pose.pose.orientation.y" = None) /\
    (fields odom !! "twist.twist.linear.x" =
       AFloat <$> item (car_body_linearVelocity B (sim after)) 0 /\
     fields odom !! "twist.twist.linear.y" =
       AFloat <$> item (car_body_linearVelocity B (sim after)) 1) /\
    (fields odom !! "twist.twist.angular.x" =
       AFloat <$> item (car_body_angularVelocity B (sim after)) 0 /\
     fields odom !! "twist.twist.angular.y" =
       AFloat <$> item (car_body_angularVelocity B (sim after)) 1 /\
     fields odom !! "twist.twist.angular.z" = None) /\
    undeclared odom = ∅.
Proof.
  intros Hstrict Hseq Hgoal Hlock Hprev after.
  destruct (Hseq (sim after)) as (Hball & Hp & Hq & Hl & Ha).
  destruct (publish_ball_lenient now after Hstrict Hball) as (ball & Eball & _).
  set (s2 := add_events [Publish ball_pub (OMessage ball)] after).
  destruct (publish_bot_lenient now s2 Hp Hq Hl Ha) as (odom & Ebot & Hodom).
  set (s3 := add_events [Publish bot_pub (OMessage odom)] s2) in *.
  exists ball, odom. split.
  - rewrite (tick_later_eq _ _ _ _ Hlock Hprev). fold after.
    apply bind_raise.
    rewrite (bind_ok _ _ _ _ _ Eball).
    rewrite (bind_ok _ _ _ _ _ Ebot).
    rewrite (publish_goal_lenient now s3 Hstrict (Hgoal _)).
    f_equal. unfold s3, s2, add_events. simpl. rewrite <- app_assoc. reflexivity.
  - replace (frame_id self) with (frame_id s2); [exact Hodom|].
    unfold s2, after. cbn [add_events frame_id].
    apply (after_game_frame now previous during (locked self)).
Qed.

Lemma quiet_query_scalar :
  (forall s, exists q, car_body_angularVelocity B s = PFloat q) ->
  quiet (fun o => exists q, o = OValue (PFloat q))
        (query B (car_body_angularVelocity B)).
Proof.
  intros Hscalar self. left. destruct (Hscalar (sim self)) as [q E].
  exists (OValue (car_body_angularVelocity B (sim self))).
  split; [reflexivity|]. exists q. rewrite E. reflexivity.
Qed.

Lemma publish_bot_fails_on_scalar now :
  (forall s, exists q, car_body_angularVelocity B s = PFloat q) ->
  fails (publish_bot B strict_slots now).
Proof.
  intros Hscalar. unfold publish_bot.
  do 18 (eapply (fails_bind (fun _ => True)); [quiet_step | intros ? _]).
  eapply fails_bind; [apply quiet_query_scalar, Hscalar | intros o [q ->]].
  apply fails_bind_l. intros self. eexists. reflexivity.
Qed.

(** X14: lines 121 and 122 index the angular velocity of the car body.
    With a backend where that velocity is a number, no tick publishes the
    odometry message: a tick publishes at most the ball message. *)
Theorem scalar_angular_velocity_stops_odometry (self : node) now during :
  (forall s, exists q, car_body_angularVelocity B s = PFloat q) ->
  List.filter (published_on bot_pub) (events (tick now during) self) = [] /\
  (List.length (List.filter is_publish (events (tick now during) self)) <= 1)%nat.
Proof.
  intros Hscalar.
  destruct (lock self) eqn:Hlock.
  { rewrite (events_blocked _ _ _ Hlock). split; [reflexivity | simpl; lia]. }
  destruct (last_time self) as [previous|] eqn:Hprev;
    [|rewrite (events_first _ _ _ Hlock Hprev);
      split; [reflexivity | simpl; lia]].
  set (s1 := after_game B now previous during (locked self)).
  destruct (game_steps_are_steps now previous during self) as (Hpub & Hbot & _).
  assert (Hev : exists pubs,
            events (tick now during) self =
              Acquire :: game_steps B now previous during self ++ pubs /\
            (pubs = [] \/ exists o, pubs = [Publish ball_pub o])).
  { destruct (publish_ball_emits now s1) as [(e & E) | (o & E)].
    - exists []. split; [|left; reflexivity].
      apply events_eq. rewrite (tick_later_eq _ _ _ _ Hlock Hprev).
      fold s1.
      assert (Et : bind (publish_ball B strict_slots now;;;
                         publish_bot B strict_slots now;;;
                         publish_goal B strict_slots now)
                        (fun _ => set_last_time B (Some now);;; lock_release B) s1
                   = (Raise e, s1)).
      { apply bind_raise, bind_raise, E. }
      rewrite Et. cbn [snd]. unfold s1. rewrite trace_later, app_nil_r. reflexivity.
    - set (s2 := add_events [Publish ball_pub o] s1).
      destruct (publish_bot_fails_on_scalar now Hscalar s2) as [e E2].
      exists [Publish ball_pub o]. split; [|right; eexists; reflexivity].
      apply events_eq. rewrite (tick_later_eq _ _ _ _ Hlock Hprev).
      fold s1.
      assert (Et : bind (publish_ball B strict_slots now;;;
                         publish_bot B strict_slots now;;;
                         publish_goal B strict_slots now)
                        (fun _ => set_last_time B (Some now);;; lock_release B) s1
                   = (Raise e, s2)).
      { apply bind_raise. rewrite (bind_ok _ _ _ _ _ E).
        apply bind_raise, E2. }
      rewrite Et. cbn [snd]. unfold s2. rewrite trace_add_events.
      unfold s1. rewrite trace_later. rewrite <- app_assoc. reflexivity. }
  destruct Hev as (pubs & -> & Hpubs).
  cbn [List.filter published_on is_publish].
  rewrite !List.filter_app, Hpub, Hbot.
  destruct Hpubs as [-> | (o & ->)]; split; first [reflexivity | simpl; lia].
Qed.

Lemma written_last earlier stamp msg c :
  written (earlier ++ [(stamp, msg)]) c =
  Some (stamp, x (linear msg), z (angular msg)).
Proof.
  revert c. induction earlier as [|[t0 m0] rest IH]; intros c.
  - reflexivity.
  - cbn [app written]. apply IH.
Qed.

(** X10: [self.last_command] is read at line 90 for the test and again at
    line 92 for the values, and the callback does not wait for the lock.
    So on a tick after the first: with no command stored at line 90 there
    is no [step], even when commands arrive while the tick runs (they are
    kept for later); with a command stored at line 90, the values handed to
    [step] are those of the last command that arrived in between, with its
    own age; and such a command, stamped at or after the time of the tick,
    is passed on as it is whenever the timeout is positive. *)
Theorem step_uses_the_last_command_written (self : node) now during previous :
  lock self = false ->
  last_time self = Some previous ->
  let stepped := List.filter is_step (events (tick now during) self) in
  last_command (snd (tick now during self)) = written during (last_command self) /\
  (last_command self = None -> stepped = []) /\
  (forall earlier stamp msg,
     is_Some (last_command self) ->
     during = earlier ++ [(stamp, msg)] ->
     let arrived := (stamp, x (linear msg), z (angular msg)) in
     stepped = [Step (fst (decay now (timeout self) arrived))
                     (snd (decay now (timeout self) arrived))
                     (to_sec (now - previous))] /\
     (now <= stamp -> (0 < timeout self)%Q ->
      decay now (timeout self) arrived = (x (linear msg), z (angular msg)))).
Proof.
  intros Hlock Hprev stepped.
  destruct (tick_later now during self previous Hlock Hprev)
    as (e & pubs & E & Hpubs).
  destruct (events_later now during self previous Hlock Hprev)
    as (pubs' & E' & Hpubs').
  assert (Hstepped : stepped = game_steps B now previous during self).
  { unfold stepped. rewrite E'. apply steps_of_later, Hpubs'. }
  split; [|split].
  - rewrite E. cbn [snd add_events last_command].
    apply (after_game_frame now previous during (locked self)).
  - intros Hcmd. rewrite Hstepped. unfold game_steps. rewrite Hcmd. reflexivity.
  - intros earlier stamp msg [c0 Hcmd] -> arrived. split.
    + rewrite Hstepped. unfold game_steps.
      rewrite Hcmd, written_last. fold arrived.
      destruct (decay now (timeout self) arrived). reflexivity.
    + intros Hstamp Htimeout. unfold arrived, decay.
      assert (Hage : (to_sec (now - stamp) < timeout self)%Q).
      { apply Qle_lt_trans with (y := 0%Q); [|exact Htimeout].
        apply to_sec_nonpos. lia. }
      apply Qle_bool_false in Hage. rewrite Hage. reflexivity.
Qed.

(** *** Whole runs *)

Lemma spin_commands schedule : forall self : node,
  ticks schedule = 0%nat ->
  exists self',
    spin B strict_slots schedule self = (Ok tt, self') /\
    sim self' = sim self /\ lock self' = lock self /\
    last_time self' = last_time self /\ trace self' = trace self.
Proof.
  induction schedule as [|[now during | now msg] rest IH]; intros self Hticks.
  - exists self. repeat split.
  - discriminate Hticks.
  - cbn [spin]. rewrite (bind_ok _ _ _ _ _ (command_cb_eq now msg self)).
    match goal with
    | |- context [spin _ _ rest ?s1] =>
        destruct (IH s1 Hticks) as (self' & E & Hsim & Hlock & Hlast & Htrace)
    end.
    exists self'. repeat split; assumption.
Qed.

Lemma spin_after_first schedule : forall self : node,
  lock self = false -> is_Some (last_time self) ->
  (1 <= ticks schedule)%nat ->
  exists e self' evs,
    spin B strict_slots schedule self = (Raise e, self') /\
    lock self' = true /\
    trace self' = trace self ++ evs /\
    (List.length (List.filter is_step evs) <= 1)%nat /\
    (List.length (List.filter is_publish evs) <= 2)%nat.
Proof.
  induction schedule as [|[now during | now msg] rest IH];
    intros self Hlock [previous Hprev] Hticks.
  - inversion Hticks.
  - destruct (tick_later now during self previous Hlock Hprev)
      as (e & pubs & E & Hpubs).
    destruct (game_steps_are_steps now previous during self)
      as (Hpub & _ & Hlen & Hsteps).
    exists e, (add_events pubs (after_game B now previous during (locked self))),
      (Acquire :: game_steps B now previous during self ++ pubs).
    split; [cbn [spin]; apply bind_raise, E|].
    split; [apply (after_game_frame now previous during (locked self))|].
    split.
    { rewrite trace_add_events, trace_later, <- app_assoc. reflexivity. }
    cbn [List.filter is_step is_publish].
    rewrite !List.filter_app, Hpub, Hsteps, !length_app.
    destruct Hpubs as [-> | [(o & ->) | (o1 & o2 & ->)]]; simpl; lia.
  - cbn [spin]. rewrite (bind_ok _ _ _ _ _ (command_cb_eq now msg self)).
    match goal with
    | |- context [spin _ _ rest ?s1] =>
        apply (IH s1 Hlock (ex_intro _ previous Hprev) Hticks)
    end.
Qed.

Lemma spin_fresh schedule : forall self : node,
  lock self = false -> last_time self = None ->
  (ticks schedule <= 1)%nat ->
  exists self',
    spin B strict_slots schedule self = (Ok tt, self') /\
    sim self' = sim self /\ lock self' = false /\
    (trace self' = trace self \/ trace self' = trace self ++ [Acquire; Release]).
Proof.
  induction schedule as [|[now during | now msg] rest IH];
    intros self Hlock Hfirst Hticks.
  - exists self. repeat split; [exact Hlock | left; reflexivity].
  - cbn [spin].
    rewrite (bind_ok _ _ _ _ _ (tick_first now during self Hlock Hfirst)).
    assert (Hrest : ticks rest = 0%nat).
    { unfold ticks in *. simpl in Hticks. lia. }
    match goal with
    | |- context [spin _ _ rest ?s1] =>
        destruct (spin_commands rest s1 Hrest)
          as (self' & E & Hsim & Hlock' & _ & Htrace)
    end.
    exists self'. repeat split; [exact E | exact Hsim | exact Hlock' |].
    right. exact Htrace.
  - cbn [spin]. rewrite (bind_ok _ _ _ _ _ (command_cb_eq now msg self)).
    match goal with
    | |- context [spin _ _ rest ?s1] => apply (IH s1 Hlock Hfirst Hticks)
    end.
Qed.

Lemma spin_fresh_raises schedule : forall self : node,
  lock self = false -> last_time self = None ->
  (2 <= ticks schedule)%nat ->
  exists e self' evs,
    spin B strict_slots schedule self = (Raise e, self') /\
    lock self' = true /\
    trace self' = trace self ++ Acquire :: Release :: evs /\
    (List.length (List.filter is_step evs) <= 1)%nat /\
    (List.length (List.filter is_publish evs) <= 2)%nat.
Proof.
  induction schedule as [|[now during | now msg] rest IH];
    intros self Hlock Hfirst Hticks.
  - inversion Hticks.
  - cbn [spin].
    rewrite (bind_ok _ _ _ _ _ (tick_first now during self Hlock Hfirst)).
    assert (Hrest : (1 <= ticks rest)%nat).
    { unfold ticks in *. simpl in Hticks. lia. }
    match goal with
    | |- context [spin _ _ rest ?s1] =>
        destruct (spin_after_first rest s1 eq_refl (ex_intro _ now eq_refl) Hrest)
          as (e & self' & evs & E & Hheld & Htrace & Hbounds)
    end.
    exists e, self', evs. split; [exact E|]. split; [exact Hheld|].
    split; [|exact Hbounds].
    rewrite Htrace. cbn [trace]. rewrite <- app_assoc. reflexivity.
  - cbn [spin]. rewrite (bind_ok _ _ _ _ _ (command_cb_eq now msg self)).
    match goal with
    | |- context [spin _ _ rest ?s1] => apply (IH s1 Hlock Hfirst Hticks)
    end.
Qed.

(** X9: the loop of [__init__], whatever commands arrive and whenever.
    The first tick returns; the second ends the loop with an exception
    that the loop does not catch, and the lock is left held, so that a
    further [loop_once] would wait for ever.  In its whole life the node
    calls [step] at most once and publishes at most two messages; with at
    most one tick it does neither and the physics state is the initial
    one. *)
Theorem loop_stops_at_the_second_tick
    (s : sim_state B) frame timeout0 schedule :
  let run := spin B strict_slots schedule (__init__ B s frame timeout0) in
  let done := trace (snd run) in
  if (ticks schedule <=? 1)%nat then
    fst run = Ok tt /\ lock (snd run) = false /\ sim (snd run) = s /\
    List.filter is_step done = [] /\ List.filter is_publish done = []
  else
    (exists e, fst run = Raise e) /\ lock (snd run) = true /\
    (forall now during, tick now during (snd run) = (Block, snd run)) /\
    (List.length (List.filter is_step done) <= 1)%nat /\
    (List.length (List.filter is_publish done) <= 2)%nat.
Proof.
  intros run done.
  destruct (Nat.leb_spec (ticks schedule) 1) as [Hticks | Hticks].
  - destruct (spin_fresh schedule (__init__ B s frame timeout0)
                eq_refl eq_refl Hticks)
      as (self' & E & Hsim & Hlock & Htrace).
    unfold done, run. rewrite E. cbn [fst snd].
    repeat split; try assumption;
      destruct Htrace as [-> | ->]; reflexivity.
  - destruct (spin_fresh_raises schedule (__init__ B s frame timeout0)
                eq_refl eq_refl Hticks)
      as (e & self' & evs & E & Hheld & Htrace & Hsteps & Hpubs).
    unfold done, run. rewrite E. cbn [fst snd].
    split; [exists e; reflexivity|]. split; [exact Hheld|].
    split; [intros now during; apply tick_blocked, Hheld|].
    rewrite Htrace. cbn [__init__ trace app List.filter is_step is_publish].
    split; assumption.
Qed.

(** *** The claims about the time step and the lock *)







End WithBackend.

(** *** The claims on the small backend *)

Import ToyBackend.

(** C1 on the small backend, where the command [(1, 0)] of time 0 is
    stored and the timeout is 1 s.  A tick at 0.05 s passes it on; a tick
    at 2 s passes [(0, 0)]; and a tick at 2 s during which the command
    [(4, 5)] arrives passes that one on, stale as the stored one is. *)
Lemma command_decay_after_first_tick_witness :
  let arrival := [(1999999000, twist 4 5)] in
  lock after_first_tick = false /\
  last_time after_first_tick = Some 10 /\
  last_command after_first_tick = Some (0, 1%Q, 0%Q) /\
  (to_sec (50000000 - 0) < timeout after_first_tick)%Q /\
  List.filter is_step
    (events (loop_once_with backend false 50000000 []) after_first_tick)
    = [Step 1 0 (to_sec (50000000 - 10))] /\
  (timeout after_first_tick <= to_sec (2000000000 - 0))%Q /\
  List.filter is_step
    (events (loop_once_with backend false 2000000000 []) after_first_tick)
    = [Step 0 0 (to_sec (2000000000 - 10))] /\
  written arrival (last_command after_first_tick) = Some (1999999000, 4%Q, 5%Q) /\
  List.filter is_step
    (events (loop_once_with backend false 2000000000 arrival) after_first_tick)
    = [Step 4 5 (to_sec (2000000000 - 10))].
Proof.
  cbv zeta.
  assert (Hfresh : (to_sec (50000000 - 0) < timeout after_first_tick)%Q).
  { vm_compute. reflexivity. }
  assert (Hstale : (timeout after_first_tick <= to_sec (2000000000 - 0))%Q).
  { vm_compute. discriminate. }
  assert (Hnew : (to_sec (2000000000 - 1999999000) < timeout after_first_tick)%Q).
  { vm_compute. reflexivity. }
  split; [reflexivity|]. split; [reflexivity|]. split; [reflexivity|].
  split; [exact Hfresh|].
  split.
  { apply (command_decay_after_first_tick backend false after_first_tick
             50000000 [] 10 0 1%Q 0%Q eq_refl eq_refl
             (ex_intro _ _ eq_refl) eq_refl).
    exact Hfresh. }
  split; [exact Hstale|].
  split.
  { apply (command_decay_after_first_tick backend false after_first_tick
             2000000000 [] 10 0 1%Q 0%Q eq_refl eq_refl
             (ex_intro _ _ eq_refl) eq_refl).
    exact Hstale. }
  split; [reflexivity|].
  apply (command_decay_after_first_tick backend false after_first_tick
           2000000000 [(1999999000, twist 4 5)] 10 1999999000 4%Q 5%Q
           eq_refl eq_refl (ex_intro _ _ eq_refl) eq_refl).
  exact Hnew.
Defined.

(** C1 as stated fails on the first tick: the command of time 0 is stored
    and fresh at 10 ns, yet [step] receives nothing. *)
Lemma first_tick_with_command_does_not_step :
  last_command commanded = Some (0, 1%Q, 0%Q) /\
  (to_sec (10 - 0) < timeout commanded)%Q /\
  ~ exists dt, In (Step 1 0 dt) (events (loop_once backend false 10) commanded).
Proof.
  split; [reflexivity|]. split; [reflexivity|].
  intros [dt Hin]. vm_compute in Hin. intuition discriminate.
Qed.

(** C3 on the small backend: the first tick, at 10 ns. *)
Lemma first_tick_only_records_time_witness :
  last_time node = None /\
  sim (snd (loop_once backend false 10 node)) = sim node /\
  List.filter is_step (events (loop_once backend false 10) node) = [] /\
  (lock node = false ->
   exists self',
     loop_once backend false 10 node = (Ok tt, self') /\
     last_time self' = Some 10 /\
     last_command self' = None /\
     lock self' = false /\
     events (loop_once backend false 10) node = [Acquire; Release]).
Proof.
  split; [reflexivity|].
  apply (first_tick_only_records_time backend false node 10 []); reflexivity.
Defined.



(** The second tick on the small backend: the ball and the bot are
    published, then line 130 raises. *)
Example second_tick_on_small_backend :
  fst (loop_once backend false 50000000 after_first_tick)
    = Raise (AttributeError "pose") /\
  map (fun e => match e with Publish pub _ => Some pub | _ => None end)
      (events (loop_once backend false 50000000) after_first_tick)
    = [None; None; Some ball_pub; Some bot_pub].
Proof. split; vm_compute; reflexivity. Qed.

(** C8 on the small backend: the second tick of a node that never got a
    command. *)
Lemma tick_without_command_raises_witness :
  lock idle_after_first_tick = false /\
  last_time idle_after_first_tick = Some 10 /\
  last_command idle_after_first_tick = None /\
  exists e self',
    loop_once backend false 50000000 idle_after_first_tick = (Raise e, self') /\
    last_time self' = Some 10 /\
    lock self' = true /\
    List.filter is_step
      (events (loop_once backend false 50000000) idle_after_first_tick) = [].
Proof.
  split; [reflexivity|]. split; [reflexivity|]. split; [reflexivity|].
  apply (tick_without_command_raises backend false idle_after_first_tick
           50000000 10); reflexivity.
Defined.



(** X10 on the small backend: a tick at 0.05 s during which two commands
    arrive, stamped after the tick took its own time stamp; [step]
    receives the values of the second, which is kept as the stored
    command. *)
Lemma step_uses_the_last_command_written_witness :
  let during := [(60000000, twist 2 3); (70000000, twist 4 5)] in
  let tick := loop_once_with backend false 50000000 during in
  lock after_first_tick = false /\
  last_time after_first_tick = Some 10 /\
  is_Some (last_command after_first_tick) /\
  List.filter is_step (events tick after_first_tick) =
    [Step 4 5 (to_sec (50000000 - 10))] /\
  last_command (snd (tick after_first_tick)) = Some (70000000, 4%Q, 5%Q).
Proof.
  cbv zeta.
  split; [reflexivity|]. split; [reflexivity|].
  split; [eexists; reflexivity|].
  destruct (step_uses_the_last_command_written backend false after_first_tick
              50000000 [(60000000, twist 2 3); (70000000, twist 4 5)] 10
              eq_refl eq_refl) as (Hlast & _ & Hstep).
  destruct (Hstep [(60000000, twist 2 3)] 70000000 (twist 4 5)
              (ex_intro _ _ eq_refl) eq_refl) as [Hs Hfresh].
  rewrite (Hfresh ltac:(lia) eq_refl) in Hs.
  split; [exact Hs | exact Hlast].
Defined.

(** X11 on the small backend with strict message classes: the second
    tick calls [step] and raises at line 101. *)
Lemma strict_messages_publish_nothing_witness :
  let tick := loop_once_with backend true 50000000 [] in
  List.filter is_publish (events tick after_first_tick) = [] /\
  fst (tick after_first_tick) = Raise (AttributeError "frame_id") /\
  events tick after_first_tick = [Acquire; Step 1 0 (to_sec (50000000 - 10))].
Proof.
  cbv zeta.
  destruct (strict_messages_publish_nothing backend true after_first_tick
              50000000 [] eq_refl) as [Hnone Hlater].
  destruct (Hlater 10 eq_refl eq_refl) as [Htick Hevents].
  split; [exact Hnone|]. split; [rewrite Htick; reflexivity | exact Hevents].
Defined.

(** X12 on the small backend: the ball is at [(1, 2)]. *)
Lemma ball_message_content_witness :
  at_least 2 (ball_getPoint backend
                (sim (after_game backend 50000000 10 [] (locked after_first_tick)))) /\
  exists m rest,
    events (loop_once_with backend false 50000000 []) after_first_tick =
      [Acquire; Step 1 0 (to_sec (50000000 - 10)); Publish ball_pub (OMessage m)]
        ++ rest /\
    type_of m = PoseWithCovarianceStamped /\
    fields m !! "header.stamp" = Some (ATime 50000000) /\
    fields m !! "header.frame_id" = None /\
    fields m !! "pose.pose.position.x" = Some (AFloat 1) /\
    fields m !! "pose.pose.position.y" = Some (AFloat 2) /\
    undeclared m !! "frame_id" = Some (AStr "sim").
Proof.
  assert (Hpoint : at_least 2 (ball_getPoint backend
                     (sim (after_game backend 50000000 10 []
                             (locked after_first_tick))))).
  { exists [1; 2]%Q. split; [reflexivity | simpl; lia]. }
  split; [exact Hpoint|].
  destruct (ball_message_content backend false after_first_tick 50000000 [] 10
              eq_refl eq_refl eq_refl Hpoint)
    as (m & rest & Hev & Htype & Hstamp & Hframe & Hx & Hy & Hextra).
  exists m, rest. split; [exact Hev|].
  split; [exact Htype|]. split; [exact Hstamp|]. split; [exact Hframe|].
  split; [exact Hx|]. split; [exact Hy | exact Hextra].
Defined.

(** X13 on the small backend: the car is at [(3, 4)], not turned and at
    rest. *)
Lemma tick_publishes_ball_then_odometry_witness :
  supplies_sequences backend /\
  (forall s, at_least 1 (goal_getPoint backend s)) /\
  exists ball odom,
    loop_once_with backend false 50000000 [] after_first_tick =
      (Raise (AttributeError "pose"),
       add_events [Publish ball_pub (OMessage ball);
                   Publish bot_pub (OMessage odom)]
         (after_game backend 50000000 10 [] (locked after_first_tick))) /\
    fields odom !! "header.frame_id" = Some (AStr "sim") /\
    fields odom !! "pose.pose.position.x" = Some (AFloat 3) /\
    fields odom !! "pose.pose.position.y" = Some (AFloat 4) /\
    fields odom !! "pose.pose.orientation.w" = Some (AFloat 1) /\
    fields odom !! "pose.pose.orientation.z" = Some (AFloat 0).
Proof.
  assert (Hseq : supplies_sequences backend).
  { intros s. repeat split; eexists; (split; [reflexivity | simpl; lia]). }
  assert (Hgoal : forall s, at_least 1 (goal_getPoint backend s)).
  { intros s. eexists. split; [reflexivity | simpl; lia]. }
  split; [exact Hseq|]. split; [exact Hgoal|].
  destruct (tick_publishes_ball_then_odometry backend false after_first_tick
              50000000 [] 10 eq_refl Hseq Hgoal eq_refl eq_refl)
    as (ball & odom & Htick & _ & (_ & Hframe) & (Hx & Hy) & (Hw & Hz & _) & _).
  exists ball, odom. split; [exact Htick|].
  split; [exact Hframe|]. split; [exact Hx|]. split; [exact Hy|].
  split; [exact Hw | exact Hz].
Defined.

(** X14 on the backend with a scalar angular velocity. *)
Lemma scalar_angular_velocity_stops_odometry_witness :
  let tick := loop_once_with scalar_backend false 50000000 [] in
  (forall s, exists q, car_body_angularVelocity scalar_backend s = PFloat q) /\
  List.filter (published_on bot_pub) (events tick scalar_after_first_tick) = [] /\
  (List.length (List.filter is_publish (events tick scalar_after_first_tick))
   <= 1)%nat.
Proof.
  cbv zeta.
  assert (Hscalar : forall s, exists q,
            car_body_angularVelocity scalar_backend s = PFloat q).
  { intros s. exists 0%Q. reflexivity. }
  split; [exact Hscalar|].
  exact (scalar_angular_velocity_stops_odometry scalar_backend false
           scalar_after_first_tick 50000000 [] Hscalar).
Defined.

End NodeFacts.

(** ** run_drl.py *)

Module RunDrlFacts.

Import RunDrl.

Ltac settle :=
  split; intros H;
  first [ discriminate H | lia | reflexivity
        | (destruct H as (? & ? & H1 & H2 & H3); discriminate) ].

(** X16: how the script ends, apart from what the factories may raise.
    It runs to its end exactly when there are an [env] and a [mode]
    argument and [env] is one of the three known names; with fewer than two
    entries in [sys.argv] the assertion fails; with exactly two (no
    [mode]) line 40 raises [IndexError], so the assertion does not guard
    it; and with an unknown [env] line 52 raises [NameError] on
    [Interface], after the message of line 50. *)
Theorem main_error_cases (argv : list string) :
  (snd (main argv) = None <->
     exists env mode, argv !! 1%nat = Some env /\ argv !! 2%nat = Some mode /\
                      is_Some (select env)) /\
  (snd (main argv) = Some AssertionError <-> (List.length argv < 2)%nat) /\
  (snd (main argv) = Some IndexError <-> List.length argv = 2%nat) /\
  (snd (main argv) = Some (NameError "Interface") <->
     exists env mode, argv !! 1%nat = Some env /\ argv !! 2%nat = Some mode /\
                      select env = None).
Proof.
  destruct argv as [|script [|env [|mode rest]]]; cbn -[select String.eqb].
  - split; [|split; [|split]]; settle.
  - split; [|split; [|split]]; settle.
  - split; [|split; [|split]]; settle.
  - destruct (select env) as [i|] eqn:Esel; cbn -[select String.eqb].
    + assert (Hok : forall A (x y z : A) (P : A -> Prop),
                P x -> P y -> P z ->
                P (if String.eqb mode "train" then x
                   else if String.eqb mode "eval" then y else z)).
      { intros A x y z P Hx Hy Hz.
        destruct (String.eqb mode "train"); [exact Hx|].
        destruct (String.eqb mode "eval"); assumption. }
      split; [|split; [|split]]; split.
      * intros _. exists env, mode. split; [reflexivity|].
        split; [reflexivity|]. exists i. exact Esel.
      * intros _. apply (Hok _ _ _ _ (fun r => snd r = None)); reflexivity.
      * apply (Hok _ _ _ _ (fun r => snd r = Some AssertionError -> _));
          discriminate.
      * lia.
      * apply (Hok _ _ _ _ (fun r => snd r = Some IndexError -> _));
          discriminate.
      * discriminate.
      * apply (Hok _ _ _ _ (fun r => snd r = Some (NameError "Interface") -> _));
          discriminate.
      * intros (env' & mode' & [= <-] & _ & H). congruence.
    + split; [|split; [|split]]; split.
      * discriminate.
      * intros (env' & mode' & [= <-] & _ & [i H]). congruence.
      * discriminate.
      * lia.
      * discriminate.
      * discriminate.
      * intros _. exists env, mode. split; [reflexivity|].
        split; [reflexivity|]. exact Esel.
      * reflexivity.
Qed.

Lemma mode_cases (mode : string) :
  (mode = "train" /\ String.eqb mode "train" = true) \/
  (mode = "eval" /\ String.eqb mode "train" = false /\ String.eqb mode "eval" = true) \/
  (mode <> "train" /\ mode <> "eval" /\
   String.eqb mode "train" = false /\ String.eqb mode "eval" = false).
Proof.
  destruct (String.eqb mode "train") eqn:Et.
  - left. split; [apply String.eqb_eq, Et | reflexivity].
  - right. destruct (String.eqb mode "eval") eqn:Ee.
    + left. split; [apply String.eqb_eq, Ee | split; reflexivity].
    + right. apply String.eqb_neq in Et, Ee. repeat split; assumption.
Qed.

(** X17: what the script does.  An agent is made exactly when [env] is
    known and a [mode] is given, from the interface [env] names; the
    trainer runs exactly when moreover [mode] is [train], the evaluator
    exactly when it is [eval]; and nothing at all is done, not even a
    line printed, exactly when [sys.argv] has at most two entries. *)
Theorem main_actions (argv : list string) :
  (forall i, In (MakeAgent i) (fst (main argv)) <->
     exists env mode, argv !! 1%nat = Some env /\ argv !! 2%nat = Some mode /\
                      select env = Some i) /\
  (forall i, In (RunTrainer i) (fst (main argv)) <->
     exists env, argv !! 1%nat = Some env /\ argv !! 2%nat = Some "train" /\
                 select env = Some i) /\
  (forall i, In (RunEvaluator i) (fst (main argv)) <->
     exists env, argv !! 1%nat = Some env /\ argv !! 2%nat = Some "eval" /\
                 select env = Some i) /\
  (fst (main argv) = [] <-> (List.length argv <= 2)%nat).
Proof.
  destruct argv as [|script [|env [|mode rest]]]; cbn -[select String.eqb].
  1-3: (split; [|split; [|split]]; [intros i | intros i | intros i |]);
       (split; [intros H; first [lia | reflexivity | destruct H]
               | intros H; first [lia | reflexivity
                 | destruct H as (? & ? & H1 & H2 & _); discriminate
                 | destruct H as (? & H1 & H2 & _); discriminate]]).
  assert (Hin : forall (a b c d x : action),
            In x [a; b; c; d] <-> x = a \/ x = b \/ x = c \/ x = d).
  { intros. simpl. intuition congruence. }
  assert (Hin3 : forall (a b c x : action),
            In x [a; b; c] <-> x = a \/ x = b \/ x = c).
  { intros. simpl. intuition congruence. }
  assert (Hin2 : forall (a b x : action), In x [a; b] <-> x = a \/ x = b).
  { intros. simpl. intuition congruence. }
  destruct (select env) as [j|] eqn:Esel; cbn -[select String.eqb In].
  - destruct (mode_cases mode) as [[-> Et] | [(-> & Et & Ee) | (Hnt & Hne & Et & Ee)]];
      rewrite ?Et, ?Ee; cbn -[select In];
      (split; [|split; [|split]]; [intros i | intros i | intros i |]);
      rewrite ?Hin, ?Hin3; split; intros H.
    all: try discriminate; try (simpl; lia).
    all: try (destruct H as [H | [H | [H | H]]]; try discriminate H;
              injection H as <-).
    all: try (destruct H as [H | [H | H]]; try discriminate H;
              injection H as <-).
    all: try (destruct H as (env' & mode' & [= <-] & [= <-] & H)).
    all: try (destruct H as (env' & [= <-] & [= H2] & H)).
    all: try (destruct H as (env' & [= <-] & _ & H)).
    all: try (assert (i = j) as -> by congruence).
    all: try congruence.
    all: eauto 10.
  - (split; [|split; [|split]]; [intros i | intros i | intros i |]);
      rewrite ?Hin2; split; intros H.
    all: try discriminate; try (simpl; lia).
    all: try (destruct H as [H | H]; discriminate H).
    all: try (destruct H as (env' & mode' & [= <-] & _ & H); congruence).
    all: try (destruct H as (env' & [= <-] & _ & H); congruence).
Qed.

End RunDrlFacts.
